(** * PyASMCompiler: a shallow embedding of [Compiler.py]

    [Compiler.py] defines the class [PyASMCompiler] twice.  Both classes
    derive from Python's [ast.NodeVisitor]; each walks a parsed syntax
    tree and appends lines of assembly text to [self.assembly_code].
    The first class (lines 8-148) is embedded as module [V1], the second
    one (lines 204-359), which rebinds the class name, as module [V2].

    The visitor methods mutate the compiler object and may raise; they
    are embedded in a state-and-exception monad over the object's
    attributes.  [ast.parse] is an external collaborator: [compile] is
    modelled from the tree it returns. *)

From Stdlib Require Import ZArith DecimalString.
From stdpp Require Import base option list strings gmap.

(** ** Python values rendered by f-strings *)

Definition LF : string := String (Ascii.ascii_of_nat 10) EmptyString.

(** [str(n)] for a Python [int]. *)
Definition str_of_Z (z : Z) : string := NilZero.string_of_int (Z.to_int z).

(** ["\n".join(lines)] *)
Fixpoint join (sep : string) (lines : list string) : string :=
  match lines with
  | [] => ""
  | [l] => l
  | l :: rest => l +:+ sep +:+ join sep rest
  end.

(** ** The syntax tree of Python's [ast] module

    Node kinds that one of the two classes has a [visit_] method for
    carry the fields that the methods read or that [generic_visit]
    traverses, in the order of the node's [_fields].  Every other node
    kind is [Generic]: its class name and its child nodes in
    [iter_fields] order, which is all [generic_visit] looks at (fields
    that hold no node, and [None] items, are skipped by it). *)
Module ast.

(** [ast.operator] *)
Inductive operator :=
| Add | Sub | Mult | MatMult | Div | Mod | Pow
| LShift | RShift | BitOr | BitXor | BitAnd | FloorDiv.

(** [ast.cmpop] *)
Inductive cmpop :=
| Eq | NotEq | Lt | LtE | Gt | GtE | Is | IsNot | In | NotIn.

(** The [value] of an [ast.Constant]; [Other] carries the [str()] of a
    float, complex, bytes or Ellipsis constant. *)
Inductive constant :=
| Int (z : Z)
| Str (s : string)
| Bool (b : bool)
| NoneValue
| Other (text : string).

Unset Elimination Schemes.
Inductive node :=
| Module_ (body : list node)
| FunctionDef (name : string) (args : node) (body : list node)
    (decorator_list : list node) (returns : option node)
    (type_params : list node)
| Assign (targets : list node) (value : node)
| Return (value : option node)
| BinOp (left : node) (op : operator) (right : node)
| If (test : node) (body : list node) (orelse : list node)
| While (address : Z) (test : node) (body : list node) (orelse : list node)
| Compare (left : node) (ops : list cmpop) (comparators : list node)
| List (elts : list node)
| Dict (keys : list (option node)) (values : list node)
| Attribute (value : node) (attr : string)
| Name (id : string)
| Constant (value : constant)
| Generic (kind : string) (children : list node).
Set Elimination Schemes.

(** The induction principle of the nested type: the hypothesis for a
    node is available for every child, through its lists and options. *)
Section node_ind.
Variable P : node → Prop.
Hypothesis H_Module : ∀ body, Forall P body → P (Module_ body).
Hypothesis H_FunctionDef :
  ∀ name args body decorator_list returns type_params,
    P args → Forall P body → Forall P decorator_list →
    from_option P True returns → Forall P type_params →
    P (FunctionDef name args body decorator_list returns type_params).
Hypothesis H_Assign :
  ∀ targets value, Forall P targets → P value → P (Assign targets value).
Hypothesis H_Return : ∀ value, from_option P True value → P (Return value).
Hypothesis H_BinOp :
  ∀ left_ op right_, P left_ → P right_ → P (BinOp left_ op right_).
Hypothesis H_If :
  ∀ test body orelse,
    P test → Forall P body → Forall P orelse → P (If test body orelse).
Hypothesis H_While :
  ∀ address test body orelse,
    P test → Forall P body → Forall P orelse →
    P (While address test body orelse).
Hypothesis H_Compare :
  ∀ left_ ops comparators,
    P left_ → Forall P comparators → P (Compare left_ ops comparators).
Hypothesis H_List : ∀ elts, Forall P elts → P (List elts).
Hypothesis H_Dict :
  ∀ keys values,
    Forall (from_option P True) keys → Forall P values →
    P (Dict keys values).
Hypothesis H_Attribute : ∀ value attr, P value → P (Attribute value attr).
Hypothesis H_Name : ∀ id, P (Name id).
Hypothesis H_Constant : ∀ value, P (Constant value).
Hypothesis H_Generic :
  ∀ kind children, Forall P children → P (Generic kind children).

Definition node_ind : ∀ n, P n :=
  fix go (n : node) : P n :=
    let go_option (o : option node) : from_option P True o :=
      match o return from_option P True o with
      | Some x => go x
      | None => I
      end in
    let go_list :=
      fix go_list (l : list node) : Forall P l :=
        match l with
        | [] => Forall_nil_2 P
        | x :: l' => Forall_cons_2 P x l' (go x) (go_list l')
        end in
    let go_keys :=
      fix go_keys (l : list (option node)) : Forall (from_option P True) l :=
        match l with
        | [] => Forall_nil_2 _
        | o :: l' => Forall_cons_2 _ o l' (go_option o) (go_keys l')
        end in
    match n with
    | Module_ body => H_Module body (go_list body)
    | FunctionDef name args body decorator_list returns type_params =>
        H_FunctionDef name args body decorator_list returns type_params
          (go args) (go_list body) (go_list decorator_list)
          (go_option returns) (go_list type_params)
    | Assign targets value =>
        H_Assign targets value (go_list targets) (go value)
    | Return value => H_Return value (go_option value)
    | BinOp left_ op right_ => H_BinOp left_ op right_ (go left_) (go right_)
    | If test body orelse =>
        H_If test body orelse (go test) (go_list body) (go_list orelse)
    | While address test body orelse =>
        H_While address test body orelse
          (go test) (go_list body) (go_list orelse)
    | Compare left_ ops comparators =>
        H_Compare left_ ops comparators (go left_) (go_list comparators)
    | List elts => H_List elts (go_list elts)
    | Dict keys values => H_Dict keys values (go_keys keys) (go_list values)
    | Attribute value attr => H_Attribute value attr (go value)
    | Name id => H_Name id
    | Constant value => H_Constant value
    | Generic kind children => H_Generic kind children (go_list children)
    end.
End node_ind.

End ast.

(** [str(value)] for the value of a constant: the text that
    [f"{value}"] gives when the conversion is allowed, see
    [format_constant]. *)
Definition py_str (v : ast.constant) : string :=
  match v with
  | ast.Int z => str_of_Z z
  | ast.Str s => s
  | ast.Bool true => "True"
  | ast.Bool false => "False"
  | ast.NoneValue => "None"
  | ast.Other text => text
  end.

(** [sys.get_int_max_str_digits()], which nothing in the file changes:
    the interpreter's default. *)
Definition int_max_str_digits : nat := 4300.

(** Whether [str(value)] refuses the conversion: the value is an [int]
    (a [bool] is written as [True] or [False]) with more decimal digits,
    the sign not counted, than the limit. *)
Definition exceeds_digits (v : ast.constant) : bool :=
  match v with
  | ast.Int z =>
      Nat.ltb int_max_str_digits (String.length (str_of_Z (Z.abs z)))
  | _ => false
  end.

(** [node.__class__.__name__] *)
Definition class_name (n : ast.node) : string :=
  match n with
  | ast.Module_ _ => "Module"
  | ast.FunctionDef _ _ _ _ _ _ => "FunctionDef"
  | ast.Assign _ _ => "Assign"
  | ast.Return _ => "Return"
  | ast.BinOp _ _ _ => "BinOp"
  | ast.If _ _ _ => "If"
  | ast.While _ _ _ _ => "While"
  | ast.Compare _ _ _ => "Compare"
  | ast.List _ => "List"
  | ast.Dict _ _ => "Dict"
  | ast.Attribute _ _ => "Attribute"
  | ast.Name _ => "Name"
  | ast.Constant _ => "Constant"
  | ast.Generic kind _ => kind
  end.

(** ** Exceptions and the state-and-exception monad *)

Inductive exn :=
| AttributeError (msg : string)
| IndexError (msg : string)
| UnboundLocalError (msg : string)
| ValueError (msg : string).

Inductive outcome (S A : Type) :=
| Ok (a : A) (s : S)
| Raise (e : exn) (s : S).
Arguments Ok {S A} a s.
Arguments Raise {S A} e s.

Definition cmd (S A : Type) : Type := S → outcome S A.

Definition final {S A} (r : outcome S A) : S :=
  match r with Ok _ s => s | Raise _ s => s end.

Definition succeeds {S A} (r : outcome S A) : Prop :=
  match r with Ok _ _ => True | Raise _ _ => False end.

Section Monad.
Context {S : Type}.

Definition ret {A} (a : A) : cmd S A := λ s, Ok a s.

Definition bind {A B} (c : cmd S A) (k : A → cmd S B) : cmd S B :=
  λ s, match c s with
       | Ok a s1 => k a s1
       | Raise e s1 => Raise e s1
       end.

Definition raise {A} (e : exn) : cmd S A := λ s, Raise e s.

Definition modify (f : S → S) : cmd S unit := λ s, Ok tt (f s).

(** [for x in l: f(x)] *)
Definition for_each {A} (f : A → cmd S unit) : list A → cmd S unit :=
  fix go l :=
    match l with
    | [] => ret tt
    | x :: l' => bind (f x) (λ _, go l')
    end.

(** [for x, y in zip(l1, l2): f(x); g(y)], on the two lists of
    suspended calls [f(x)] and [g(y)]. *)
Definition for_each_zip (l1 l2 : list (cmd S unit)) : cmd S unit :=
  for_each (λ xy : cmd S unit * cmd S unit, bind xy.1 (λ _, xy.2)) (zip l1 l2).
End Monad.

Declare Scope cmd_scope.
Delimit Scope cmd_scope with cmd.
Bind Scope cmd_scope with cmd.
Notation "c1 ;; c2" := (bind c1%cmd (λ _, c2%cmd))
  (at level 100, c2 at level 200, right associativity) : cmd_scope.
Notation "x ← c1 ; c2" := (bind c1%cmd (λ x, c2%cmd))
  (at level 20, c1 at level 100, c2 at level 200, only parsing) : cmd_scope.
Open Scope cmd_scope.

(** [f"{value}"] for the value of a constant: [str(value)], which
    raises [ValueError] for an [int] beyond the digit limit. *)
Definition format_constant {S} (v : ast.constant) : cmd S string :=
  if exceeds_digits v then
    raise (ValueError
      "Exceeds the limit (4300 digits) for integer string conversion; use sys.set_int_max_str_digits() to increase the limit")
  else ret (py_str v).

(** ** [ast.NodeVisitor]

    What the methods of the two classes hand to [visit] and
    [generic_visit]: a node, the list in [node.body] or [node.orelse], or
    the [None] that stands for the key of a [**mapping] item of a
    dictionary display. *)
Inductive object :=
| Node (n : ast.node)
| NodeList (l : list ast.node)
| NoneObject.

(** [type(o).__name__] *)
Definition type_name (o : object) : string :=
  match o with
  | Node n => class_name n
  | NodeList _ => "list"
  | NoneObject => "NoneType"
  end.

(** [iter_fields] reads [node._fields] before it yields anything, so
    [generic_visit] of an object that is no node raises. *)
Definition no_fields {S} (type_name : string) : cmd S unit :=
  raise (AttributeError ("'" +:+ type_name +:+ "' object has no attribute '_fields'")).

(** [NodeVisitor.generic_visit]: [self.visit] on every child node, field
    by field in the order of [_fields]; items that are no nodes are
    skipped.  The operator and context nodes ([Add], [Lt], [Load]) have
    no fields and no [visit_] method in either class, so visiting them
    does nothing and they are left out. *)
Definition generic_visit {S} (visit : ast.node → cmd S unit) (o : object)
  : cmd S unit :=
  match o with
  | Node n =>
      match n with
      | ast.Module_ body => for_each visit body
      | ast.FunctionDef _ args body decorator_list returns type_params =>
          visit args ;;
          for_each visit body ;;
          for_each visit decorator_list ;;
          match returns with Some r => visit r | None => ret tt end ;;
          for_each visit type_params
      | ast.Assign targets value => for_each visit targets ;; visit value
      | ast.Return value =>
          match value with Some v => visit v | None => ret tt end
      | ast.BinOp left_ _ right_ => visit left_ ;; visit right_
      | ast.If test body orelse =>
          visit test ;; for_each visit body ;; for_each visit orelse
      | ast.While _ test body orelse =>
          visit test ;; for_each visit body ;; for_each visit orelse
      | ast.Compare left_ _ comparators =>
          visit left_ ;; for_each visit comparators
      | ast.List elts => for_each visit elts
      | ast.Dict keys values =>
          for_each (λ key, match key with
                           | Some k => visit k
                           | None => ret tt
                           end) keys ;;
          for_each visit values
      | ast.Attribute value _ => visit value
      | ast.Name _ => ret tt
      | ast.Constant _ => ret tt
      | ast.Generic _ children => for_each visit children
      end
  | NodeList _ => no_fields (type_name o)
  | NoneObject => no_fields (type_name o)
  end.

(** ** The second class (lines 204-359) *)
Module V2.

Record state := State {
  assembly_code : list string;
  variables : gmap string unit;
  current_function : option string;
  global_variables : gset string;
  local_variables : gset string;
  builtins : gset string
}.

(** [__init__] *)
Definition init : state :=
  {| assembly_code := ["section .text"];
     variables := ∅;
     current_function := None;
     global_variables := ∅;
     local_variables := ∅;
     builtins := {["True"; "False"; "None"]} |}.

Definition set_assembly_code (l : list string) (s : state) : state :=
  State l (variables s) (current_function s) (global_variables s)
    (local_variables s) (builtins s).
Definition set_current_function (f : option string) (s : state) : state :=
  State (assembly_code s) (variables s) f (global_variables s)
    (local_variables s) (builtins s).
Definition set_global_variables (g : gset string) (s : state) : state :=
  State (assembly_code s) (variables s) (current_function s) g
    (local_variables s) (builtins s).
Definition set_local_variables (l : gset string) (s : state) : state :=
  State (assembly_code s) (variables s) (current_function s)
    (global_variables s) l (builtins s).

(** [self.assembly_code.append(line)] *)
Definition emit (line : string) : cmd state unit :=
  modify (λ s, set_assembly_code (assembly_code s ++ [line]) s).

Section methods.
(** [self.visit], which the methods call back into. *)
Variable visit : ast.node → cmd state unit.

(** [self.visit(key)] for a key of a dictionary display. *)
Definition visit_key (key : option ast.node) : cmd state unit :=
  match key with
  | Some k => visit k
  | None => generic_visit visit NoneObject
  end.

(** [visit_FunctionDef] *)
Definition visit_FunctionDef (node : ast.node) (name : string)
  : cmd state unit :=
  emit ("global " +:+ name) ;;
  emit (name +:+ ":") ;;
  emit "    push rbp" ;;
  emit "    mov rbp, rsp" ;;
  modify (set_current_function (Some name)) ;;
  modify (set_local_variables ∅) ;;
  generic_visit visit (Node node) ;;
  emit "    pop rbp" ;;
  emit "    ret" ;;
  modify (set_current_function None).

(** The head of the loop body of [visit_Assign]:
    [if var_name not in self.local_variables: self.local_variables.add(var_name)] *)
Definition add_local (var_name : string) : cmd state unit :=
  λ s,
    if decide (var_name ∈ local_variables s) then ret tt s
    else modify (λ s, set_local_variables (local_variables s ∪ {[var_name]}) s) s.

(** [visit_Assign] *)
Definition visit_Assign (targets : list ast.node) (value : ast.node)
  : cmd state unit :=
  for_each (λ target,
    match target with
    | ast.Name var_name =>
        add_local var_name ;;
        match value with
        | ast.Constant v =>
            text ← format_constant v;
            emit ("    mov " +:+ var_name +:+ ", " +:+ text)
        | ast.Name id =>
            emit ("    mov " +:+ var_name +:+ ", " +:+ id)
        | ast.BinOp _ _ _ =>
            visit value ;;
            emit ("    mov " +:+ var_name +:+ ", rax")
        | _ => ret tt
        end
    | _ => ret tt
    end) targets.

(** [visit_Name] *)
Definition visit_Name (id : string) : cmd state unit :=
  λ s,
    if decide (id ∈ builtins s) then
      emit ("    ; Built-in " +:+ id) s
    else if decide (id ∈ local_variables s) then
      emit ("    ; Local variable " +:+ id) s
    else if decide (id ∈ global_variables s) then
      emit ("    ; Global variable " +:+ id) s
    else
      (modify (λ s, set_global_variables (global_variables s ∪ {[id]}) s) ;;
       emit ("    ; Unknown variable " +:+ id +:+ " (adding to globals)")) s.

(** [visit_Return] *)
Definition visit_Return (value : option ast.node) : cmd state unit :=
  match value with
  | Some (ast.BinOp _ _ _ as v) => visit v
  | Some (ast.Constant c) =>
      text ← format_constant c;
      emit ("    mov rax, " +:+ text)
  | Some (ast.Name id) => emit ("    mov rax, " +:+ id)
  | _ => ret tt
  end ;;
  emit "    ret".

(** The operator dispatch that ends [visit_BinOp]. *)
Definition apply_op (op : ast.operator) : cmd state unit :=
  match op with
  | ast.Add => emit "    add rax, rbx"
  | ast.Sub => emit "    sub rax, rbx"
  | ast.Mult => emit "    imul rax, rbx"
  | ast.Div => emit "    cqo" ;; emit "    idiv rbx"
  | ast.Mod => emit "    cqo" ;; emit "    idiv rbx" ;; emit "    mov rax, rdx"
  | _ => ret tt
  end.

(** [visit_BinOp] *)
Definition visit_BinOp (left_ : ast.node) (op : ast.operator)
  (right_ : ast.node) : cmd state unit :=
  visit left_ ;;
  emit "    mov rbx, rax" ;;
  visit right_ ;;
  apply_op op.

(** [visit_If] *)
Definition visit_If (test : ast.node) (body orelse : list ast.node)
  : cmd state unit :=
  emit "    ; If condition" ;;
  visit test ;;
  emit "    jz else_block" ;;
  generic_visit visit (NodeList body) ;;
  emit "else_block:" ;;
  match orelse with
  | [] => ret tt
  | _ :: _ =>
      emit "    ; Else condition" ;;
      generic_visit visit (NodeList orelse)
  end.

(** [visit_While]; [address] is the value of [id(node)]. *)
Definition visit_While (address : Z) (test : ast.node)
  (body : list ast.node) : cmd state unit :=
  let loop_label := "loop_" +:+ str_of_Z address in
  emit (loop_label +:+ ":") ;;
  visit test ;;
  emit ("    jz end_" +:+ loop_label) ;;
  generic_visit visit (NodeList body) ;;
  emit ("    jmp " +:+ loop_label) ;;
  emit ("end_" +:+ loop_label +:+ ":").

(** [visit_List] *)
Definition visit_List (elts : list ast.node) : cmd state unit :=
  emit "    ; Creating list" ;;
  for_each visit elts.

(** [visit_Dict] *)
Definition visit_Dict (keys : list (option ast.node))
  (values : list ast.node) : cmd state unit :=
  emit "    ; Creating dictionary" ;;
  for_each_zip (map visit_key keys) (map visit values).

(** [visit_Attribute] *)
Definition visit_Attribute (attr : string) : cmd state unit :=
  emit ("    ; Handling attribute " +:+ attr).
End methods.

(** [NodeVisitor.visit]: the dispatch on the class of the node to the
    method [visit_<class>], or to [generic_visit] where the class has
    none. *)
Fixpoint visit (node : ast.node) {struct node} : cmd state unit :=
  match node with
  | ast.FunctionDef name _ _ _ _ _ => visit_FunctionDef visit node name
  | ast.Assign targets value => visit_Assign visit targets value
  | ast.Name id => visit_Name id
  | ast.Return value => visit_Return visit value
  | ast.BinOp left_ op right_ => visit_BinOp visit left_ op right_
  | ast.If test body orelse => visit_If visit test body orelse
  | ast.While address test body _ => visit_While visit address test body
  | ast.List elts => visit_List visit elts
  | ast.Dict keys values => visit_Dict visit keys values
  | ast.Attribute _ attr => visit_Attribute attr
  | ast.Module_ _ | ast.Compare _ _ _ | ast.Constant _ | ast.Generic _ _ =>
      generic_visit visit (Node node)
  end.

(** [compile], from the tree that [ast.parse] returned. *)
Definition compile (tree : ast.node) : cmd state string :=
  visit tree ;;
  λ s, ret (join LF (assembly_code s)) s.

(** [apply_vcal] and [apply_lpit]: both bodies are [pass]. *)
Definition apply_vcal : cmd state unit := ret tt.
Definition apply_lpit : cmd state unit := ret tt.

(** [optimize] *)
Definition optimize : cmd state unit :=
  apply_vcal ;; apply_lpit.

End V2.

(** ** The first class (lines 8-148) *)
Module V1.

Record state := State {
  assembly_code : list string;
  variables : gmap string unit;
  current_function : option string
}.

(** [__init__] *)
Definition init : state :=
  {| assembly_code := ["section .text"];
     variables := ∅;
     current_function := None |}.

Definition set_assembly_code (l : list string) (s : state) : state :=
  State l (variables s) (current_function s).
Definition set_variables (v : gmap string unit) (s : state) : state :=
  State (assembly_code s) v (current_function s).
Definition set_current_function (f : option string) (s : state) : state :=
  State (assembly_code s) (variables s) f.

(** [self.assembly_code.append(line)] *)
Definition emit (line : string) : cmd state unit :=
  modify (λ s, set_assembly_code (assembly_code s ++ [line]) s).

Section methods.
(** [self.visit], which the methods call back into. *)
Variable visit : ast.node → cmd state unit.

(** [self.visit(key)] for a key of a dictionary display. *)
Definition visit_key (key : option ast.node) : cmd state unit :=
  match key with
  | Some k => visit k
  | None => generic_visit visit NoneObject
  end.

(** [visit_FunctionDef] *)
Definition visit_FunctionDef (node : ast.node) (name : string)
  : cmd state unit :=
  emit ("global " +:+ name) ;;
  emit (name +:+ ":") ;;
  emit "    push rbp" ;;
  emit "    mov rbp, rsp" ;;
  modify (set_current_function (Some name)) ;;
  generic_visit visit (Node node) ;;
  emit "    pop rbp" ;;
  emit "    ret" ;;
  modify (set_current_function None).

(** [target.id], where [target] is the loop variable of [visit_Assign]
    read after the loop has ended. *)
Definition target_id (targets : list ast.node) : cmd state string :=
  match last targets with
  | None =>
      raise (UnboundLocalError
        "cannot access local variable 'target' where it is not associated with a value")
  | Some (ast.Name id) => ret id
  | Some target =>
      raise (AttributeError
        ("'" +:+ class_name target +:+ "' object has no attribute 'id'"))
  end.

(** [visit_Assign] *)
Definition visit_Assign (targets : list ast.node) (value : ast.node)
  : cmd state unit :=
  for_each (λ target,
    match target with
    | ast.Name id =>
        modify (λ s, set_variables (<[id := tt]> (variables s)) s)
    | _ => ret tt
    end) targets ;;
  match value with
  | ast.Constant v =>
      id ← target_id targets;
      text ← format_constant v;
      emit ("    mov " +:+ id +:+ ", " +:+ text)
  | ast.Name value_id =>
      id ← target_id targets;
      emit ("    mov " +:+ id +:+ ", " +:+ value_id)
  | ast.BinOp _ _ _ =>
      visit value ;;
      id ← target_id targets;
      emit ("    mov " +:+ id +:+ ", rax")
  | _ => ret tt
  end.

(** [visit_Return] *)
Definition visit_Return (value : option ast.node) : cmd state unit :=
  match value with
  | Some (ast.BinOp _ _ _ as v) => visit v
  | Some (ast.Constant c) =>
      text ← format_constant c;
      emit ("    mov rax, " +:+ text)
  | Some (ast.Name id) => emit ("    mov rax, " +:+ id)
  | _ => ret tt
  end ;;
  emit "    ret".

(** [visit_BinOp] *)
Definition visit_BinOp (op : ast.operator) : cmd state unit :=
  match op with
  | ast.Add => emit "    add rax, rcx"
  | ast.Sub => emit "    sub rax, rcx"
  | ast.Mult => emit "    imul rax, rcx"
  | ast.Div => emit "    cqo" ;; emit "    idiv rcx"
  | ast.Mod => emit "    cqo" ;; emit "    idiv rcx" ;; emit "    mov rax, rdx"
  | _ => ret tt
  end.

(** [visit_If] *)
Definition visit_If (test : ast.node) (body orelse : list ast.node)
  : cmd state unit :=
  emit "    ; If condition" ;;
  visit test ;;
  emit "    jz else_block" ;;
  generic_visit visit (NodeList body) ;;
  emit "else_block:" ;;
  match orelse with
  | [] => ret tt
  | _ :: _ =>
      emit "    ; Else condition" ;;
      generic_visit visit (NodeList orelse)
  end.

(** [visit_While]; [address] is the value of [id(node)]. *)
Definition visit_While (address : Z) (test : ast.node)
  (body : list ast.node) : cmd state unit :=
  let loop_label := "loop_" +:+ str_of_Z address in
  emit (loop_label +:+ ":") ;;
  visit test ;;
  emit ("    jz end_" +:+ loop_label) ;;
  generic_visit visit (NodeList body) ;;
  emit ("    jmp " +:+ loop_label) ;;
  emit ("end_" +:+ loop_label +:+ ":").

(** [visit_Compare] *)
Definition visit_Compare (ops : list ast.cmpop) : cmd state unit :=
  match ops with
  | [] => raise (IndexError "list index out of range")
  | ast.Gt :: _ => emit "    cmp rax, rcx" ;; emit "    jg comparison_true"
  | ast.Lt :: _ => emit "    cmp rax, rcx" ;; emit "    jl comparison_true"
  | ast.Eq :: _ => emit "    cmp rax, rcx" ;; emit "    je comparison_true"
  | _ :: _ => ret tt
  end ;;
  emit "    jmp comparison_false" ;;
  emit "comparison_true:" ;;
  emit "    mov rax, 1" ;;
  emit "    jmp end_comparison" ;;
  emit "comparison_false:" ;;
  emit "    mov rax, 0" ;;
  emit "end_comparison:".

(** [visit_List] *)
Definition visit_List (elts : list ast.node) : cmd state unit :=
  emit "    ; Creating list" ;;
  for_each visit elts.

(** [visit_Dict] *)
Definition visit_Dict (keys : list (option ast.node))
  (values : list ast.node) : cmd state unit :=
  emit "    ; Creating dictionary" ;;
  for_each_zip (map visit_key keys) (map visit values).

(** [visit_Attribute] *)
Definition visit_Attribute (attr : string) : cmd state unit :=
  emit ("    ; Handling attribute " +:+ attr).

(** [visit_Name] *)
Definition visit_Name (id : string) : cmd state unit :=
  emit ("    ; Variable " +:+ id).
End methods.

(** [NodeVisitor.visit] with the methods of the first class. *)
Fixpoint visit (node : ast.node) {struct node} : cmd state unit :=
  match node with
  | ast.FunctionDef name _ _ _ _ _ => visit_FunctionDef visit node name
  | ast.Assign targets value => visit_Assign visit targets value
  | ast.Return value => visit_Return visit value
  | ast.BinOp _ op _ => visit_BinOp op
  | ast.If test body orelse => visit_If visit test body orelse
  | ast.While address test body _ => visit_While visit address test body
  | ast.Compare _ ops _ => visit_Compare ops
  | ast.List elts => visit_List visit elts
  | ast.Dict keys values => visit_Dict visit keys values
  | ast.Attribute _ attr => visit_Attribute attr
  | ast.Name id => visit_Name id
  | ast.Module_ _ | ast.Constant _ | ast.Generic _ _ =>
      generic_visit visit (Node node)
  end.

(** [compile], from the tree that [ast.parse] returned. *)
Definition compile (tree : ast.node) : cmd state string :=
  visit tree ;;
  λ s, ret (join LF (assembly_code s)) s.

(** [optimize]: the body is [pass]. *)
Definition optimize : cmd state unit := ret tt.

End V1.

(** ** Syntax trees of some programs

    The trees that [ast.parse] returns for the source texts quoted. *)

(** [arguments] of a [def] with the given number of plain parameters. *)
Definition plain_arguments (n : nat) : ast.node :=
  ast.Generic "arguments" (replicate n (ast.Generic "arg" [])).

(** The first function of both [python_code] examples of the file:
<<
def factorial(n):
    if n == 0:
        return 1
    else:
        return n * factorial(n - 1)
>> *)
Definition factorial_def : ast.node :=
  ast.FunctionDef "factorial" (plain_arguments 1)
    [ast.If
       (ast.Compare (ast.Name "n") [ast.Eq] [ast.Constant (ast.Int 0)])
       [ast.Return (Some (ast.Constant (ast.Int 1)))]
       [ast.Return (Some
          (ast.BinOp (ast.Name "n") ast.Mult
             (ast.Generic "Call"
                [ast.Name "factorial";
                 ast.BinOp (ast.Name "n") ast.Sub (ast.Constant (ast.Int 1))])))]]
    [] None [].

(**
<<
def inc(x):
    y = x + 1
    return y
>> *)
Definition inc_module : ast.node :=
  ast.Module_
    [ast.FunctionDef "inc" (plain_arguments 1)
       [ast.Assign [ast.Name "y"]
          (ast.BinOp (ast.Name "x") ast.Add (ast.Constant (ast.Int 1)));
        ast.Return (Some (ast.Name "y"))]
       [] None []].

(**
<<
a < b
c < d
>> *)
Definition two_compares : ast.node :=
  ast.Module_
    [ast.Generic "Expr" [ast.Compare (ast.Name "a") [ast.Lt] [ast.Name "b"]];
     ast.Generic "Expr" [ast.Compare (ast.Name "c") [ast.Lt] [ast.Name "d"]]].

(**
<<
pass
>> *)
Definition pass_module : ast.node := ast.Module_ [ast.Generic "Pass" []].

(**
<<
def a():
    x = 1
def b():
    return x + 1
>> *)
Definition two_functions : ast.node :=
  ast.Module_
    [ast.FunctionDef "a" (plain_arguments 0)
       [ast.Assign [ast.Name "x"] (ast.Constant (ast.Int 1))] [] None [];
     ast.FunctionDef "b" (plain_arguments 0)
       [ast.Return (Some
          (ast.BinOp (ast.Name "x") ast.Add (ast.Constant (ast.Int 1))))]
       [] None []].

(** ** Vocabulary of the properties *)

(** The first line of a text: the characters before its first line feed. *)
Fixpoint first_line (text : string) : string :=
  match text with
  | EmptyString => EmptyString
  | String c rest =>
      if Ascii.eqb c (Ascii.ascii_of_nat 10) then EmptyString
      else String c (first_line rest)
  end.

Fixpoint ends_with (c : Ascii.ascii) (line : string) : bool :=
  match line with
  | EmptyString => false
  | String a EmptyString => Ascii.eqb a c
  | String _ rest => ends_with c rest
  end.

(** A line of the listing defines a label when it is not indented and
    ends with a colon; instructions and comments are indented. *)
Definition is_label (line : string) : bool :=
  negb (String.prefix " " line) && ends_with (Ascii.ascii_of_nat 58) line.

Definition labels (lines : list string) : list string :=
  List.filter is_label lines.

(** The lines that the operator dispatch of the second class's
    [visit_BinOp] appends. *)
Definition op_lines (op : ast.operator) : list string :=
  match op with
  | ast.Add => ["    add rax, rbx"]
  | ast.Sub => ["    sub rax, rbx"]
  | ast.Mult => ["    imul rax, rbx"]
  | ast.Div => ["    cqo"; "    idiv rbx"]
  | ast.Mod => ["    cqo"; "    idiv rbx"; "    mov rax, rdx"]
  | _ => []
  end.

(** The lines that the first class's [visit_Compare] appends for a
    comparison whose first operator is [op]. *)
Definition compare_lines (op : ast.cmpop) : list string :=
  match op with
  | ast.Gt => ["    cmp rax, rcx"; "    jg comparison_true"]
  | ast.Lt => ["    cmp rax, rcx"; "    jl comparison_true"]
  | ast.Eq => ["    cmp rax, rcx"; "    je comparison_true"]
  | _ => []
  end
  ++ ["    jmp comparison_false"; "comparison_true:"; "    mov rax, 1";
      "    jmp end_comparison"; "comparison_false:"; "    mov rax, 0";
      "end_comparison:"].

(** Trees made only of node kinds that the second class has no [visit_]
    method for. *)
Fixpoint no_rule_below (n : ast.node) : bool :=
  match n with
  | ast.Module_ body => forallb no_rule_below body
  | ast.Compare left_ _ comparators =>
      no_rule_below left_ && forallb no_rule_below comparators
  | ast.Constant _ => true
  | ast.Generic _ children => forallb no_rule_below children
  | _ => false
  end.

(** The names that the [Assign] statements of a tree make local: their
    [Name] targets. *)
Fixpoint assigned (n : ast.node) : gset string :=
  match n with
  | ast.Module_ body => ⋃ (map assigned body)
  | ast.FunctionDef _ args body decorator_list returns type_params =>
      assigned args ∪ ⋃ (map assigned body) ∪ ⋃ (map assigned decorator_list)
      ∪ from_option assigned ∅ returns ∪ ⋃ (map assigned type_params)
  | ast.Assign targets value =>
      ⋃ (map (λ target, match target with
                        | ast.Name id => {[id]}
                        | _ => ∅
                        end) targets)
      ∪ assigned value
  | ast.Return value => from_option assigned ∅ value
  | ast.BinOp left_ _ right_ => assigned left_ ∪ assigned right_
  | ast.If test body orelse =>
      assigned test ∪ ⋃ (map assigned body) ∪ ⋃ (map assigned orelse)
  | ast.While _ test body orelse =>
      assigned test ∪ ⋃ (map assigned body) ∪ ⋃ (map assigned orelse)
  | ast.Compare left_ _ comparators =>
      assigned left_ ∪ ⋃ (map assigned comparators)
  | ast.List elts => ⋃ (map assigned elts)
  | ast.Dict keys values =>
      ⋃ (map (from_option assigned ∅) keys) ∪ ⋃ (map assigned values)
  | ast.Attribute value _ => assigned value
  | ast.Name _ => ∅
  | ast.Constant _ => ∅
  | ast.Generic _ children => ⋃ (map assigned children)
  end.

(** A command keeps the relation [R] between the state it starts in and
    the state it ends in, whether it returns or raises. *)
Definition preserves {S A} (R : relation S) (c : cmd S A) : Prop :=
  ∀ s, R s (final (c s)).

(** The listing [asm] is only appended to: the listing before is a
    prefix of the listing after. *)
Definition extends {S} (asm : S → list string) : relation S :=
  λ s s', asm s `prefix_of` asm s'.

Definition appends {S A} (asm : S → list string) (c : cmd S A) : Prop :=
  preserves (extends asm) c.

(** The local set gains at most names of [X]. *)
Definition locals_within (X : gset string) : relation V2.state :=
  λ s s', V2.local_variables s' ⊆ V2.local_variables s ∪ X.

(** The [Name] targets of an assignment, in order. *)
Definition target_names (targets : list ast.node) : list string :=
  omap (λ target, match target with
                  | ast.Name id => Some id
                  | _ => None
                  end) targets.

(** The operand that [visit_Assign] and [visit_Return] write for a value
    they do not visit: the [str()] of a [Constant], the [id] of a
    [Name]. *)
Definition operand_text (value : ast.node) : option string :=
  match value with
  | ast.Constant c => Some (py_str c)
  | ast.Name id => Some id
  | _ => None
  end.

Definition is_BinOp (value : ast.node) : bool :=
  match value with
  | ast.BinOp _ _ _ => true
  | _ => false
  end.

(** Whether the f-string that writes the value is formed without
    raising: the value is no [int] constant beyond the digit limit. *)
Definition formats (value : ast.node) : bool :=
  match value with
  | ast.Constant c => negb (exceeds_digits c)
  | _ => true
  end.

(** Trees that the second class visits without meeting an [If], a
    [While] or the [None] key of a dictionary display and without
    formatting an [int] constant beyond the digit limit, read along the
    calls of [visit]: the value of an [Assign] counts when some target
    is a [Name], as a tree when it is a [BinOp] and for its digits when
    it is a [Constant]; the value of a [Return] likewise; the items of a
    [Dict] as far as [zip] pairs them; and nothing below an
    [Attribute]. *)
Fixpoint V2_raise_free (n : ast.node) : bool :=
  match n with
  | ast.Module_ body => forallb V2_raise_free body
  | ast.FunctionDef _ args body decorator_list rets type_params =>
      V2_raise_free args && forallb V2_raise_free body
      && forallb V2_raise_free decorator_list
      && from_option V2_raise_free true rets
      && forallb V2_raise_free type_params
  | ast.Assign targets value =>
      match target_names targets with
      | [] => true
      | _ :: _ =>
          match value with
          | ast.BinOp _ _ _ => V2_raise_free value
          | _ => formats value
          end
      end
  | ast.Return value =>
      match value with
      | Some (ast.BinOp _ _ _ as v) => V2_raise_free v
      | Some v => formats v
      | None => true
      end
  | ast.BinOp left_ _ right_ => V2_raise_free left_ && V2_raise_free right_
  | ast.If _ _ _ => false
  | ast.While _ _ _ _ => false
  | ast.Compare left_ _ comparators =>
      V2_raise_free left_ && forallb V2_raise_free comparators
  | ast.List elts => forallb V2_raise_free elts
  | ast.Dict keys values =>
      forallb (λ kv : bool * bool, kv.1 && kv.2)
        (zip (map (from_option V2_raise_free false) keys)
             (map V2_raise_free values))
  | ast.Attribute _ _ => true
  | ast.Name _ => true
  | ast.Constant _ => true
  | ast.Generic _ children => forallb V2_raise_free children
  end.

(** Whether the command returns is the same in every state, and [b]
    tells it. *)
Definition decides {S A} (c : cmd S A) (b : bool) : Prop :=
  ∀ s, succeeds (c s) ↔ b = true.

(** What no visit of the second class touches: [variables],
    [builtins]; and what it only adds to: [global_variables]. *)
Definition V2_frame : relation V2.state :=
  λ s s', V2.variables s' = V2.variables s
          ∧ V2.builtins s' = V2.builtins s
          ∧ V2.global_variables s ⊆ V2.global_variables s'.

(** The names recorded in [variables] of the first class are kept. *)
Definition V1_keeps_variables : relation V1.state :=
  λ s s', dom (V1.variables s) ⊆ dom (V1.variables s').

(** ** The monad's equations and preserved relations *)

Section cmd_facts.
Context {S : Type}.

Lemma bind_Ok {A B} (c : cmd S A) (k : A → cmd S B) s a s1 :
  c s = Ok a s1 → bind c k s = k a s1.
Proof. unfold bind. by intros ->. Qed.

Lemma for_each_cons {A} (f : A → cmd S unit) x l :
  for_each f (x :: l) = (f x ;; for_each f l).
Proof. done. Qed.

Lemma for_each_zip_cons (c1 c2 : cmd S unit) l1 l2 :
  for_each_zip (c1 :: l1) (c2 :: l2) = ((c1 ;; c2) ;; for_each_zip l1 l2).
Proof. done. Qed.

Context (R : relation S) `{!PreOrder R}.

Lemma preserves_ret {A} (a : A) : preserves R (ret a).
Proof. by intros s. Qed.

Lemma preserves_raise {A} e : preserves R (raise (A:=A) e).
Proof. by intros s. Qed.

Lemma preserves_no_fields t : preserves R (no_fields t).
Proof. apply preserves_raise. Qed.

Lemma preserves_format_constant v : preserves R (format_constant v).
Proof.
  unfold format_constant.
  destruct (exceeds_digits v); [apply preserves_raise|apply preserves_ret].
Qed.

Lemma preserves_modify (f : S → S) :
  (∀ s, R s (f s)) → preserves R (modify f).
Proof. intros Hf s. apply Hf. Qed.

Lemma preserves_bind {A B} (c : cmd S A) (k : A → cmd S B) :
  preserves R c → (∀ a, preserves R (k a)) → preserves R (bind c k).
Proof.
  intros Hc Hk s. unfold bind. specialize (Hc s).
  destruct (c s) as [a s1|e s1]; simpl in *; [|done].
  etrans; [exact Hc | apply Hk].
Qed.

Lemma preserves_for_each {A} (f : A → cmd S unit) l :
  Forall (λ x, preserves R (f x)) l → preserves R (for_each f l).
Proof.
  induction 1 as [|x l Hx _ IH]; [apply preserves_ret|].
  rewrite for_each_cons. by apply preserves_bind.
Qed.

Lemma preserves_for_each_zip (l1 l2 : list (cmd S unit)) :
  Forall (preserves R) l1 → Forall (preserves R) l2 →
  preserves R (for_each_zip l1 l2).
Proof.
  intros H1. revert l2.
  induction H1 as [|c1 l1 Hc1 _ IH]; intros l2 H2; [apply preserves_ret|].
  destruct H2 as [|c2 l2 Hc2 H2]; [apply preserves_ret|].
  rewrite for_each_zip_cons.
  apply preserves_bind; [by apply preserves_bind | intros _; by apply IH].
Qed.
End cmd_facts.

#[export] Instance extends_preorder {S} (asm : S → list string) :
  PreOrder (extends asm).
Proof.
  split; [intros s|intros s1 s2 s3]; unfold extends.
  - done.
  - intros H12 H23. by etrans.
Qed.

#[export] Instance locals_within_preorder X : PreOrder (locals_within X).
Proof.
  split; [intros s|intros s1 s2 s3]; unfold locals_within.
  - apply union_subseteq_l.
  - intros H12 H23. etrans; [exact H23|].
    apply union_least; [done|apply union_subseteq_r].
Qed.

Create HintDb preserves.
#[local] Hint Resolve preserves_ret preserves_raise preserves_no_fields
  preserves_format_constant : preserves.

Ltac preserves_step :=
  first
    [ apply preserves_for_each_zip; [apply _|..]
    | apply preserves_bind; [apply _| |intros ?]
    | apply preserves_for_each; [apply _|]
    | progress eauto with preserves ].

(** ** The second class: what a visit leaves as it was *)

Lemma assigned_list l X :
  ⋃ (map assigned l) ⊆ X → Forall (λ n, assigned n ⊆ X) l.
Proof.
  induction l as [|n l IH]; simpl; intros HX; constructor; set_solver.
Qed.

Lemma assigned_keys (keys : list (option ast.node)) X :
  ⋃ (map (from_option assigned ∅) keys) ⊆ X →
  Forall (λ key, from_option assigned ∅ key ⊆ X) keys.
Proof.
  induction keys as [|key keys IH]; simpl; intros HX; constructor; set_solver.
Qed.

Lemma assigned_target id targets value :
  ast.Name id ∈ targets → id ∈ assigned (ast.Assign targets value).
Proof.
  intros Hin. simpl. apply elem_of_union_l.
  induction targets as [|target targets IH]; [by apply elem_of_nil in Hin|].
  apply elem_of_cons in Hin as [<-|Hin]; simpl.
  - apply elem_of_union_l. by apply elem_of_singleton.
  - apply elem_of_union_r. by apply IH.
Qed.

Lemma Forall_modus_ponens {A} (P Q : A → Prop) l :
  Forall (λ x, P x → Q x) l → Forall P l → Forall Q l.
Proof. induction 1; inversion 1; constructor; auto. Qed.

Section V2_preserves.
Import V2.

Lemma V2_emit_eq line s :
  emit line s = Ok tt (set_assembly_code (assembly_code s ++ [line]) s).
Proof. done. Qed.

(** A relation that every attribute update of the class keeps, save
    that the local set may only be extended by the names of [X]. *)
Context (R : relation state) `{!PreOrder R} (X : gset string).
Hypothesis R_emit :
  ∀ line s, R s (set_assembly_code (assembly_code s ++ [line]) s).
Hypothesis R_current_function : ∀ f s, R s (set_current_function f s).
Hypothesis R_global_variables :
  ∀ id s, R s (set_global_variables (global_variables s ∪ {[id]}) s).
Hypothesis R_clear : ∀ s, R s (set_local_variables ∅ s).
Hypothesis R_add_local :
  ∀ x s, x ∈ X → R s (set_local_variables (local_variables s ∪ {[x]}) s).

Lemma V2_preserves_emit line : preserves R (emit line).
Proof. intros s. apply R_emit. Qed.

Hint Resolve V2_preserves_emit : preserves.

Lemma V2_preserves_visit_Name id : preserves R (visit_Name id).
Proof.
  intros s. unfold visit_Name.
  repeat case_decide; try apply R_emit.
  etrans; [apply (R_global_variables id s)|apply R_emit].
Qed.

Lemma V2_preserves_add_local x : x ∈ X → preserves R (add_local x).
Proof.
  intros Hx s. unfold add_local. case_decide; [done|]. by apply R_add_local.
Qed.

Lemma V2_preserves_apply_op op : preserves R (apply_op op).
Proof. destruct op; simpl; repeat preserves_step. Qed.

Hint Resolve V2_preserves_visit_Name V2_preserves_apply_op : preserves.

Lemma V2_preserves_visit n : assigned n ⊆ X → preserves R (visit n).
Proof.
  induction n as
    [ body IHbody
    | name args body decos rets tparams IHargs IHbody IHdecos IHrets IHtparams
    | targets value _ IHvalue | value IHvalue | left_ op right_ IHleft IHright
    | test body orelse IHtest _ _ | address test body orelse IHtest _ _
    | left_ ops comparators IHleft IHcomparators | elts IHelts
    | keys values IHkeys IHvalues | | | | kind children IHchildren ]
    using ast.node_ind; simpl; intros HX.
  - preserves_step.
    eapply Forall_modus_ponens; [exact IHbody|]. by apply assigned_list.
  - repeat (preserves_step; try by apply preserves_modify).
    + apply IHargs. set_solver.
    + eapply Forall_modus_ponens; [exact IHbody|].
      apply assigned_list. set_solver.
    + eapply Forall_modus_ponens; [exact IHdecos|].
      apply assigned_list. set_solver.
    + destruct rets as [r|]; simpl in *; [|eauto with preserves].
      apply IHrets. set_solver.
    + eapply Forall_modus_ponens; [exact IHtparams|].
      apply assigned_list. set_solver.
  - preserves_step. apply Forall_forall. intros target Htarget.
    destruct target as [| | | | | | | | | | |id| |]; eauto with preserves.
    preserves_step.
    + apply V2_preserves_add_local.
      by apply HX, (assigned_target id targets value).
    + destruct value; eauto with preserves.
      * apply preserves_bind; [apply _| |eauto with preserves].
        apply IHvalue. etrans; [|exact HX]. apply union_subseteq_r.
      * repeat preserves_step.
  - preserves_step; [|eauto with preserves].
    destruct value as [[]|]; simpl in *; eauto with preserves.
    repeat preserves_step.
  - repeat preserves_step; [apply IHleft|apply IHright]; set_solver.
  - repeat preserves_step; [apply IHtest; set_solver|].
    destruct orelse; repeat preserves_step.
  - repeat preserves_step. apply IHtest. set_solver.
  - repeat preserves_step; [apply IHleft; set_solver|].
    eapply Forall_modus_ponens; [exact IHcomparators|].
    apply assigned_list. set_solver.
  - repeat preserves_step.
    eapply Forall_modus_ponens; [exact IHelts|]. by apply assigned_list.
  - repeat preserves_step.
    + apply List.Forall_map.
      assert (Hkeys : Forall (λ key, from_option assigned ∅ key ⊆ X) keys)
        by (apply assigned_keys; set_solver).
      eapply Forall_modus_ponens; [|exact Hkeys].
      eapply Forall_impl; [exact IHkeys|].
      intros [k|] Hk Hsub; simpl in *; eauto with preserves.
    + apply List.Forall_map.
      eapply Forall_modus_ponens; [exact IHvalues|].
      apply assigned_list. set_solver.
  - eauto with preserves.
  - eauto with preserves.
  - eauto with preserves.
  - preserves_step.
    eapply Forall_modus_ponens; [exact IHchildren|]. by apply assigned_list.
Qed.
End V2_preserves.

Lemma V2_appends_emit line : appends V2.assembly_code (V2.emit line).
Proof. intros s. unfold extends. by apply prefix_app_r. Qed.

Lemma V2_appends_apply_op op : appends V2.assembly_code (V2.apply_op op).
Proof.
  apply V2_preserves_apply_op; [apply _|].
  intros line s. unfold extends. by apply prefix_app_r.
Qed.

(** Visiting a node only appends to [assembly_code]. *)
Lemma V2_appends_visit n : appends V2.assembly_code (V2.visit n).
Proof.
  apply (V2_preserves_visit _ (assigned n));
    try apply _; unfold extends; simpl; intros; try done.
  by apply prefix_app_r.
Qed.

(** Visiting a node adds to [local_variables] at most the names that the
    node assigns to. *)
Lemma V2_locals_visit n :
  preserves (locals_within (assigned n)) (V2.visit n).
Proof.
  apply (V2_preserves_visit _ (assigned n));
    try apply _; unfold locals_within; simpl; intros; try done.
  - apply union_subseteq_l.
  - apply union_subseteq_l.
  - apply union_subseteq_l.
  - apply union_least; [apply union_subseteq_l|].
    apply singleton_subseteq_l. by apply elem_of_union_r.
Qed.

(** ** The listing starts with its section header *)

Lemma first_line_append_LF a t : first_line (a +:+ LF +:+ t) = first_line a.
Proof.
  induction a as [|c a IH]; simpl; [done|].
  destruct (Ascii.eqb c _); [done|]. by rewrite IH.
Qed.

Lemma first_line_join line rest :
  first_line (join LF (line :: rest)) = first_line line.
Proof.
  destruct rest as [|l rest]; [done|].
  change (join LF (line :: l :: rest)) with (line +:+ LF +:+ join LF (l :: rest)).
  apply first_line_append_LF.
Qed.

(** C10. When [compile], run on a fresh compiler object, returns a text,
    the first line of that text is exactly [section .text]; and visiting
    any node in any state only appends to [assembly_code]: the lines that
    were there remain, in place, whether the visit returns or raises. *)
Theorem compile_section_header_and_append_only tree text s' :
  V2.compile tree V2.init = Ok text s' →
  first_line text = "section .text"
  ∧ V2.assembly_code V2.init `prefix_of` V2.assembly_code s'
  ∧ ∀ n, appends V2.assembly_code (V2.visit n).
Proof.
  intros Hc. pose proof (V2_appends_visit tree V2.init) as Hpre.
  unfold V2.compile, bind in Hc.
  destruct (V2.visit tree V2.init) as [[] s1|e s1]; [|done].
  simpl in Hc, Hpre. injection Hc as <- <-.
  split_and!; [|done|apply V2_appends_visit].
  destruct Hpre as [k ->]. apply first_line_join.
Qed.

Lemma compile_section_header_and_append_only_witness :
  first_line (join LF (V2.assembly_code (final (V2.visit inc_module V2.init))))
    = "section .text"
  ∧ V2.assembly_code V2.init
      `prefix_of` V2.assembly_code (final (V2.visit inc_module V2.init))
  ∧ ∀ n, appends V2.assembly_code (V2.visit n).
Proof.
  apply (compile_section_header_and_append_only inc_module).
  vm_compute. reflexivity.
Defined.


(** ** Name resolution *)

(** C5. [visit_Name] never raises and tests the three sets in a fixed
    order.  A name in [builtins] is reported as a built-in; otherwise a
    name in [local_variables] is reported as local; otherwise a name in
    [global_variables] is reported as global; otherwise the name is
    inserted into [global_variables], which is the only change to the
    sets, and from then on it resolves as global. *)
Theorem visit_Name_classification id s :
  ∃ s', V2.visit (ast.Name id) s = Ok tt s'
    ∧ V2.local_variables s' = V2.local_variables s
    ∧ V2.builtins s' = V2.builtins s
    ∧ (id ∈ V2.builtins s →
         V2.assembly_code s' = V2.assembly_code s ++ ["    ; Built-in " +:+ id]
         ∧ V2.global_variables s' = V2.global_variables s)
    ∧ (id ∉ V2.builtins s → id ∈ V2.local_variables s →
         V2.assembly_code s'
           = V2.assembly_code s ++ ["    ; Local variable " +:+ id]
         ∧ V2.global_variables s' = V2.global_variables s)
    ∧ (id ∉ V2.builtins s → id ∉ V2.local_variables s →
       id ∈ V2.global_variables s →
         V2.assembly_code s'
           = V2.assembly_code s ++ ["    ; Global variable " +:+ id]
         ∧ V2.global_variables s' = V2.global_variables s)
    ∧ (id ∉ V2.builtins s → id ∉ V2.local_variables s →
       id ∉ V2.global_variables s →
         V2.assembly_code s'
           = V2.assembly_code s
               ++ ["    ; Unknown variable " +:+ id +:+ " (adding to globals)"]
         ∧ V2.global_variables s' = V2.global_variables s ∪ {[id]}
         ∧ ∃ s'', V2.visit (ast.Name id) s' = Ok tt s''
             ∧ V2.assembly_code s''
                 = V2.assembly_code s' ++ ["    ; Global variable " +:+ id]
             ∧ V2.global_variables s'' = V2.global_variables s').
Proof.
  simpl. unfold V2.visit_Name.
  destruct (decide (id ∈ V2.builtins s)) as [Hb|Hb];
    [|destruct (decide (id ∈ V2.local_variables s)) as [Hl|Hl];
      [|destruct (decide (id ∈ V2.global_variables s)) as [Hg|Hg]]];
    eexists; (split; [reflexivity|]); simpl; split_and!; try done.
  intros _ _ _. split_and!; [done..|].
  rewrite !decide_False by done.
  rewrite decide_True by set_solver.
  eexists. by split_and!.
Qed.

Lemma visit_Name_classification_witness :
  ∃ s', V2.visit (ast.Name "n") V2.init = Ok tt s'
    ∧ V2.assembly_code s'
        = ["section .text"; "    ; Unknown variable n (adding to globals)"]
    ∧ V2.global_variables s' = {["n"]}.
Proof.
  destruct (visit_Name_classification "n" V2.init)
    as (s' & Hv & _ & _ & _ & _ & _ & Hunknown).
  destruct Hunknown as (Hasm & Hglob & _); [compute_done..|].
  exists s'. split_and!; [done|done|].
  rewrite Hglob. apply union_empty_l_L.
Defined.

(** ** Function scope *)

(** C7. Lowering a [FunctionDef] empties [local_variables] before
    anything of the function is visited: the body is lowered from a
    state whose local set is empty and whose global set is the one
    inherited.  Hence the outcome does not depend on the local set left
    by an earlier function, and the names that are local when the
    lowering of the function ends, by returning or by raising, are all
    assigned inside that function: what a function inherits by name, it
    inherits through the global set. *)
Theorem FunctionDef_resets_locals name args body decos rets tparams s :
  V2.visit (ast.FunctionDef name args body decos rets tparams) s
    = (generic_visit V2.visit
         (Node (ast.FunctionDef name args body decos rets tparams)) ;;
       V2.emit "    pop rbp" ;;
       V2.emit "    ret" ;;
       modify (V2.set_current_function None))
        {| V2.assembly_code :=
             V2.assembly_code s
               ++ ["global " +:+ name; name +:+ ":";
                   "    push rbp"; "    mov rbp, rsp"];
           V2.variables := V2.variables s;
           V2.current_function := Some name;
           V2.global_variables := V2.global_variables s;
           V2.local_variables := ∅;
           V2.builtins := V2.builtins s |}
  ∧ (∀ locals,
       V2.visit (ast.FunctionDef name args body decos rets tparams)
         (V2.set_local_variables locals s)
       = V2.visit (ast.FunctionDef name args body decos rets tparams) s)
  ∧ V2.local_variables
      (final (V2.visit (ast.FunctionDef name args body decos rets tparams) s))
      ⊆ assigned (ast.FunctionDef name args body decos rets tparams).
Proof.
  set (fd := ast.FunctionDef name args body decos rets tparams).
  set (rest := (generic_visit V2.visit (Node fd) ;;
                V2.emit "    pop rbp" ;;
                V2.emit "    ret" ;;
                modify (V2.set_current_function None))).
  assert (Hvisit : ∀ s0,
    V2.visit fd s0
    = rest {| V2.assembly_code :=
                V2.assembly_code s0
                  ++ ["global " +:+ name; name +:+ ":";
                      "    push rbp"; "    mov rbp, rsp"];
              V2.variables := V2.variables s0;
              V2.current_function := Some name;
              V2.global_variables := V2.global_variables s0;
              V2.local_variables := ∅;
              V2.builtins := V2.builtins s0 |}).
  { intros s0.
    change (V2.visit fd s0)
      with ((V2.emit ("global " +:+ name) ;;
             V2.emit (name +:+ ":") ;;
             V2.emit "    push rbp" ;;
             V2.emit "    mov rbp, rsp" ;;
             modify (V2.set_current_function (Some name)) ;;
             modify (V2.set_local_variables ∅) ;;
             rest) s0).
    unfold bind at 1 2 3 4 5 6. simpl. by rewrite <- !(assoc_L (++)). }
  split_and!; [apply Hvisit| |].
  - intros locals. by rewrite !Hvisit.
  - assert (V2.visit fd (V2.set_local_variables ∅ s) = V2.visit fd s)
      as <- by by rewrite !Hvisit.
    etrans; [apply (V2_locals_visit fd)|].
    simpl. apply union_least; [apply empty_subseteq|done].
Qed.

(** In [two_functions] the name [x] is assigned in [a] and read in [b]:
    while lowering [b] it is not local any more, it is promoted to the
    globals. *)
Example two_functions_listing :
  ∃ s, V2.compile two_functions V2.init
       = Ok (join LF (V2.assembly_code s)) s
    ∧ V2.assembly_code s
        = ["section .text";
           "global a"; "a:"; "    push rbp"; "    mov rbp, rsp";
           "    mov x, 1"; "    pop rbp"; "    ret";
           "global b"; "b:"; "    push rbp"; "    mov rbp, rsp";
           "    ; Unknown variable x (adding to globals)";
           "    mov rbx, rax"; "    add rax, rbx"; "    ret";
           "    pop rbp"; "    ret"]
    ∧ V2.local_variables s = ∅
    ∧ V2.global_variables s = {["x"]}.
Proof.
  exists (final (V2.visit two_functions V2.init)).
  split_and!; [by vm_compute|reflexivity|done|].
  simpl. apply union_empty_l_L.
Qed.

(** ** The optimization passes *)

(** C9. [optimize] runs [apply_vcal] and [apply_lpit]; each returns
    with the compiler object unchanged, so the listing after [optimize]
    is the listing before it and every way of running a listing gives
    the same result on both. *)
Theorem optimize_is_transparent s :
  V2.apply_vcal s = Ok tt s
  ∧ V2.apply_lpit s = Ok tt s
  ∧ V2.optimize s = Ok tt s
  ∧ ∀ (R : Type) (run : list string → R),
      run (V2.assembly_code (final (V2.optimize s)))
      = run (V2.assembly_code s).
Proof. by split_and!. Qed.

(** ** Binary operations and assignments *)

Lemma V2_apply_op_eq op s :
  V2.apply_op op s
  = Ok tt (V2.set_assembly_code (V2.assembly_code s ++ op_lines op) s).
Proof.
  destruct s, op; cbv [V2.apply_op op_lines bind ret V2.emit modify];
    simpl; by rewrite ?app_nil_r, <- ?(assoc_L (++)).
Qed.

Lemma appends_Ok {S A} (asm : S → list string) (c : cmd S A) s a s1 :
  appends asm c → c s = Ok a s1 → ∃ lines, asm s1 = asm s ++ lines.
Proof. intros Hc Hs. specialize (Hc s). by rewrite Hs in Hc. Qed.

(** C4. When the operands lower without raising, [visit_BinOp] appends
    the lines of the left operand, then the one line [mov rbx, rax], then
    the lines of the right operand, then the lines of the operator: every
    line of the left operand comes before every line of the right. *)
Theorem BinOp_left_before_right left_ op right_ s s1 s2 :
  V2.visit left_ s = Ok tt s1 →
  V2.visit right_
    (V2.set_assembly_code (V2.assembly_code s1 ++ ["    mov rbx, rax"]) s1)
    = Ok tt s2 →
  ∃ L R,
    V2.assembly_code s1 = V2.assembly_code s ++ L
    ∧ V2.assembly_code s2
        = V2.assembly_code s ++ L ++ ["    mov rbx, rax"] ++ R
    ∧ V2.visit (ast.BinOp left_ op right_) s
        = Ok tt (V2.set_assembly_code
                   (V2.assembly_code s ++ L ++ ["    mov rbx, rax"] ++ R
                      ++ op_lines op) s2).
Proof.
  intros Hl Hr.
  destruct (appends_Ok _ _ _ _ _ (V2_appends_visit left_) Hl) as [L HL].
  destruct (appends_Ok _ _ _ _ _ (V2_appends_visit right_) Hr) as [R HR].
  simpl in HR. exists L, R. split_and!; [done| |].
  - rewrite HR, HL. by rewrite <- !(assoc_L (++)).
  - simpl. unfold V2.visit_BinOp. rewrite (bind_Ok _ _ _ _ _ Hl).
    rewrite (bind_Ok _ _ _ _ _ (V2_emit_eq _ s1)).
    rewrite (bind_Ok _ _ _ _ _ Hr), V2_apply_op_eq.
    do 2 f_equal. rewrite HR, HL. by rewrite <- !(assoc_L (++)).
Qed.

Lemma BinOp_left_before_right_witness :
  ∃ L R,
    L = ["    ; Unknown variable x (adding to globals)"]
    ∧ R = ["    ; Unknown variable y (adding to globals)"]
    ∧ V2.assembly_code
        (final (V2.visit (ast.BinOp (ast.Name "x") ast.Sub (ast.Name "y"))
                  V2.init))
      = V2.assembly_code V2.init ++ L ++ ["    mov rbx, rax"] ++ R
          ++ op_lines ast.Sub.
Proof.
  destruct (BinOp_left_before_right (ast.Name "x") ast.Sub (ast.Name "y")
              V2.init
              (final (V2.visit (ast.Name "x") V2.init))
              (final (V2.visit (ast.Name "y")
                 (V2.set_assembly_code
                    (V2.assembly_code (final (V2.visit (ast.Name "x") V2.init))
                       ++ ["    mov rbx, rax"])
                    (final (V2.visit (ast.Name "x") V2.init))))))
    as (L & R & HL & HR & Hv); [vm_compute; reflexivity..|].
  exists L, R. rewrite Hv. simpl.
  apply (inj (app _)) in HL. subst L.
  split_and!; [done| |done].
  vm_compute in HR. by injection HR as <-.
Defined.

Lemma V2_add_local_eq x s :
  V2.add_local x s
  = Ok tt (V2.set_local_variables (V2.local_variables s ∪ {[x]}) s).
Proof.
  unfold V2.add_local. case_decide as Hx; [|done].
  rewrite (comm_L (∪)), subseteq_union_1_L by by apply singleton_subseteq_l.
  by destruct s.
Qed.

Lemma bind_ret_tt {S} (c : cmd S unit) s : (c ;; ret tt) s = c s.
Proof. unfold bind. by destruct (c s) as [[] ?|]. Qed.



(** ** Node kinds without a [visit_] method *)

Lemma V2_for_each_no_rule l :
  Forall (λ n, no_rule_below n = true → ∀ s, V2.visit n s = Ok tt s) l →
  forallb no_rule_below l = true →
  ∀ s, for_each V2.visit l s = Ok tt s.
Proof.
  induction 1 as [|n l Hn _ IH]; simpl; [done|].
  intros [Hn' Hl]%andb_prop s.
  unfold bind. rewrite Hn by done. by apply IH.
Qed.

Lemma V2_visit_no_rule n :
  no_rule_below n = true → ∀ s, V2.visit n s = Ok tt s.
Proof.
  induction n as
    [ body IH | | | | | | | left_ ops comparators IHleft IHcomparators
    | | | | | | kind children IH ] using ast.node_ind;
    simpl; try done.
  - by apply V2_for_each_no_rule.
  - intros [Hl Hc]%andb_prop s. unfold bind. rewrite IHleft by done.
    by apply V2_for_each_no_rule.
  - by apply V2_for_each_no_rule.
Qed.

(** C6, as the code has it.  A node kind without a [visit_] method is
    no error: visiting such a node is visiting its child nodes in order,
    and nothing is emitted for the node itself.  A tree made only of such
    node kinds compiles, the compiler object is left as it was, and the
    text returned is the listing as it stood. *)
Theorem compile_no_rule_returns tree s :
  no_rule_below tree = true →
  V2.compile tree s = Ok (join LF (V2.assembly_code s)) s
  ∧ ∀ kind children s0,
      V2.visit (ast.Generic kind children) s0 = for_each V2.visit children s0.
Proof.
  intros H. split; [|done].
  unfold V2.compile, bind. by rewrite V2_visit_no_rule.
Qed.

Lemma compile_no_rule_returns_witness :
  V2.compile (ast.Module_ [ast.Generic "Pass" []; ast.Generic "Break" []])
    V2.init
  = Ok (join LF (V2.assembly_code V2.init)) V2.init.
Proof. apply compile_no_rule_returns. reflexivity. Defined.

(** C6, as the claim has it, fails on [pass]: the traversal reaches a
    [Pass] node, for which there is no [visit_] method, and [compile]
    returns the text [section .text]; nothing is raised. *)
Lemma compile_pass_returns :
  V2.compile pass_module V2.init = Ok "section .text" V2.init
  ∧ ¬ ∃ e s, V2.compile pass_module V2.init = Raise e s.
Proof. split; [reflexivity|]. by intros (e & s & ?). Qed.

(** ** Conditionals *)

(** C3, on the code.  [visit_If] hands the list [node.body] to
    [generic_visit], which raises [AttributeError]: no [If] node is ever
    lowered to the end, in either class.  On [factorial] the listing
    stops after [jz else_block]. *)
Theorem visit_If_raises test body orelse :
  (∀ s, ¬ succeeds (V2.visit (ast.If test body orelse) s))
  ∧ (∀ s, ¬ succeeds (V1.visit (ast.If test body orelse) s))
  ∧ ∃ s,
      V2.compile (ast.Module_ [factorial_def]) V2.init
        = Raise (AttributeError "'list' object has no attribute '_fields'") s
      ∧ V2.assembly_code s
          = ["section .text"; "global factorial"; "factorial:";
             "    push rbp"; "    mov rbp, rsp"; "    ; If condition";
             "    ; Unknown variable n (adding to globals)";
             "    jz else_block"].
Proof.
  split_and!.
  - intros s. simpl. unfold V2.visit_If, bind. simpl.
    destruct (V2.visit test _) as [[] ?|]; simpl; tauto.
  - intros s. simpl. unfold V1.visit_If, bind. simpl.
    destruct (V1.visit test _) as [[] ?|]; simpl; tauto.
  - eexists. split; vm_compute; reflexivity.
Qed.

(** ** Labels of comparisons *)

(** C1, on the code.  The first class lowers the two comparisons of
    [two_compares] to the same three labels: the text that [compile]
    returns defines [comparison_true], [comparison_false] and
    [end_comparison] twice each. *)
Theorem compare_labels_repeat :
  ∃ text s,
    V1.compile two_compares V1.init = Ok text s
    ∧ labels (V1.assembly_code s)
        = ["comparison_true:"; "comparison_false:"; "end_comparison:";
           "comparison_true:"; "comparison_false:"; "end_comparison:"]
    ∧ ¬ NoDup (labels (V1.assembly_code s)).
Proof.
  do 2 eexists. split; [vm_compute; reflexivity|].
  split; [reflexivity|]. simpl.
  intros Hnd. apply NoDup_cons_1_1 in Hnd. apply Hnd.
  do 2 constructor 2. constructor 1.
Qed.

(** C2, on the code.  In the first class the lines, and with them the
    labels, that [visit_Compare] appends depend on the first operator
    alone: they are the same at every comparison and in every state.  The
    second class has no [visit_Compare]: a comparison of two constants
    appends nothing. *)
Theorem Compare_labels_are_shared op ops :
  (∀ left_ comparators s,
     V1.visit (ast.Compare left_ (op :: ops) comparators) s
     = Ok tt (V1.set_assembly_code (V1.assembly_code s ++ compare_lines op) s))
  ∧ labels (compare_lines op)
      = ["comparison_true:"; "comparison_false:"; "end_comparison:"]
  ∧ ∀ a b s,
      V2.visit (ast.Compare (ast.Constant a) (op :: ops) [ast.Constant b]) s
      = Ok tt s.
Proof.
  split_and!.
  - intros left_ comparators [asm vars fn].
    destruct op; cbv [V1.visit V1.visit_Compare compare_lines bind ret
                      V1.emit modify V1.set_assembly_code
                      V1.assembly_code V1.variables V1.current_function];
      by rewrite <- ?(assoc_L (++)).
  - by destruct op.
  - done.
Qed.

(** ** Further properties of the second class *)

#[export] Instance V2_frame_preorder : PreOrder V2_frame.
Proof.
  split; [intros s|intros s1 s2 s3]; unfold V2_frame.
  - done.
  - intros (Hv12 & Hb12 & Hg12) (Hv23 & Hb23 & Hg23).
    split_and!; [congruence|congruence|by etrans].
Qed.

(** X1. No visit of the second class, returning or raising, writes
    [variables] or [builtins], and none removes a name from
    [global_variables]. *)
Theorem V2_visit_frame n s :
  V2.variables (final (V2.visit n s)) = V2.variables s
  ∧ V2.builtins (final (V2.visit n s)) = V2.builtins s
  ∧ V2.global_variables s ⊆ V2.global_variables (final (V2.visit n s)).
Proof.
  apply (V2_preserves_visit V2_frame (assigned n));
    try apply _; unfold V2_frame; simpl; intros; try done.
  split_and!; [done|done|apply union_subseteq_l].
Qed.

Section decides_facts.
Context {S : Type}.

Lemma decides_ret {A} (a : A) : decides (ret (S:=S) a) true.
Proof. by intros s. Qed.

Lemma decides_raise {A} e : decides (raise (S:=S) (A:=A) e) false.
Proof. by intros s. Qed.

Lemma decides_modify (f : S → S) : decides (modify f) true.
Proof. by intros s. Qed.

Lemma decides_format_constant c :
  decides (format_constant (S:=S) c) (negb (exceeds_digits c)).
Proof. intros s. unfold format_constant. by destruct (exceeds_digits c). Qed.

Lemma decides_bind {A B} (c : cmd S A) (k : A → cmd S B) b1 b2 :
  decides c b1 → (∀ a, decides (k a) b2) → decides (bind c k) (b1 && b2).
Proof.
  intros Hc Hk s. unfold bind. specialize (Hc s).
  destruct (c s) as [a s1|e s1]; simpl in *.
  - by rewrite (Hk a s1), (proj1 Hc I).
  - destruct b1; [destruct (proj2 Hc eq_refl)|done].
Qed.

Lemma decides_eq {A} (c : cmd S A) b b' : decides c b → b = b' → decides c b'.
Proof. by intros Hc <-. Qed.

Lemma decides_for_each {A} (f : A → cmd S unit) (g : A → bool) l :
  Forall (λ x, decides (f x) (g x)) l → decides (for_each f l) (forallb g l).
Proof.
  induction 1 as [|x l Hx _ IH]; [apply decides_ret|].
  rewrite for_each_cons. simpl. by apply decides_bind.
Qed.

Lemma decides_for_each_zip (l1 l2 : list (cmd S unit)) (b1 b2 : list bool) :
  Forall2 decides l1 b1 → Forall2 decides l2 b2 →
  decides (for_each_zip l1 l2)
    (forallb (λ kv : bool * bool, kv.1 && kv.2) (zip b1 b2)).
Proof.
  intros H1. revert l2 b2.
  induction H1 as [|c1 d1 l1 b1 Hc1 _ IH]; intros l2 b2 H2;
    [apply decides_ret|].
  destruct H2 as [|c2 d2 l2 b2 Hc2 H2]; [apply decides_ret|].
  rewrite for_each_zip_cons. simpl.
  apply decides_bind; [by apply decides_bind | intros _; by apply IH].
Qed.
End decides_facts.

Lemma Forall2_map_same {A B C} (R : B → C → Prop) (f : A → B) (g : A → C) l :
  Forall (λ x, R (f x) (g x)) l → Forall2 R (map f l) (map g l).
Proof. induction 1; simpl; by constructor. Qed.

Lemma forallb_target_names (b : bool) targets :
  forallb (λ target, match target with ast.Name _ => b | _ => true end) targets
  = match target_names targets with [] => true | _ :: _ => b end.
Proof.
  induction targets as [|target targets IH]; [done|].
  destruct target; simpl; try exact IH.
  rewrite IH. unfold target_names.
  destruct (omap _ targets), b; done.
Qed.

Ltac decides_step :=
  first
    [ apply decides_modify
    | apply decides_ret
    | apply decides_raise
    | eassumption
    | apply decides_for_each; eassumption
    | apply decides_bind; [|intros ?] ].

Lemma V2_decides_visit_Name id : decides (V2.visit_Name id) true.
Proof. intros s. unfold V2.visit_Name. by repeat case_decide. Qed.

Lemma V2_decides_add_local x : decides (V2.add_local x) true.
Proof. intros s. unfold V2.add_local. by case_decide. Qed.

Lemma V2_decides_apply_op op : decides (V2.apply_op op) true.
Proof. by destruct op. Qed.

Lemma V2_decides_visit n : decides (V2.visit n) (V2_raise_free n).
Proof.
  induction n as
    [ body IHbody
    | name args body decos rets tparams IHargs IHbody IHdecos IHrets IHtparams
    | targets value _ IHvalue | value IHvalue | left_ op right_ IHleft IHright
    | test body orelse _ _ _ | address test body orelse _ _ _
    | left_ ops comparators IHleft IHcomparators | elts IHelts
    | keys values IHkeys IHvalues | | | | kind children IHchildren ]
    using ast.node_ind.
  - by apply decides_for_each.
  - eapply decides_eq.
    + unfold V2.visit, V2.visit_FunctionDef, V2.emit, generic_visit.
      fold V2.visit.
      repeat decides_step.
      instantiate (1 := from_option V2_raise_free true rets).
      destruct rets; [exact IHrets|apply decides_ret].
    + simpl. by rewrite ?andb_true_r, ?andb_assoc.
  - set (b := match value with
              | ast.BinOp _ _ _ => V2_raise_free value
              | _ => formats value
              end).
    eapply decides_eq.
    + apply (decides_for_each _
        (λ target, match target with ast.Name _ => b | _ => true end)).
      apply Forall_forall. intros target _.
      destruct target; try apply decides_ret.
      apply (decides_eq _ (true && b)); [|done].
      apply decides_bind; [apply V2_decides_add_local|intros ?].
      subst b. destruct value; simpl;
        try apply decides_ret; try apply decides_modify.
      * apply (decides_eq _ (V2_raise_free (ast.BinOp value1 op value2) && true));
          [|apply andb_true_r].
        apply decides_bind; [exact IHvalue|intros ?; apply decides_modify].
      * apply (decides_eq _ (negb (exceeds_digits value) && true));
          [|apply andb_true_r].
        apply decides_bind;
          [apply decides_format_constant|intros ?; apply decides_modify].
    + rewrite forallb_target_names. simpl.
      by destruct (target_names targets).
  - apply (decides_eq _ (V2_raise_free (ast.Return value) && true));
      [|apply andb_true_r].
    apply decides_bind; [|intros ?; apply decides_modify].
    destruct value as [[]|]; simpl in *;
      try apply decides_ret; try apply decides_modify; try done.
    apply (decides_eq _ (negb (exceeds_digits value) && true));
      [|apply andb_true_r].
    apply decides_bind;
      [apply decides_format_constant|intros ?; apply decides_modify].
  - eapply decides_eq.
    + unfold V2.visit, V2.visit_BinOp, V2.emit. fold V2.visit.
      apply decides_bind; [exact IHleft|intros _].
      apply decides_bind; [apply decides_modify|intros _].
      apply decides_bind; [exact IHright|intros _].
      apply V2_decides_apply_op.
    + simpl. by rewrite ?andb_true_r.
  - intros s. simpl. unfold V2.visit_If, bind. simpl.
    destruct (V2.visit test _) as [[] ?|]; simpl; split; done.
  - intros s. simpl. unfold V2.visit_While, bind. simpl.
    destruct (V2.visit test _) as [[] ?|]; simpl; split; done.
  - apply decides_bind; [exact IHleft|intros _].
    by apply decides_for_each.
  - eapply decides_eq.
    + apply decides_bind; [apply decides_modify|intros _].
      apply decides_for_each. exact IHelts.
    + done.
  - eapply decides_eq.
    + apply decides_bind; [apply decides_modify|intros _].
      apply decides_for_each_zip.
      * apply (Forall2_map_same decides (V2.visit_key V2.visit)
                 (from_option V2_raise_free false)).
        eapply Forall_impl; [exact IHkeys|].
        intros [k|] Hk; simpl in *; [exact Hk|apply decides_raise].
      * by apply (Forall2_map_same decides V2.visit V2_raise_free).
    + done.
  - apply decides_modify.
  - apply V2_decides_visit_Name.
  - apply decides_ret.
  - by apply decides_for_each.
Qed.



(** ** Loops *)

(** X3. [visit_While] hands the list [node.body] to [generic_visit]:
    in both classes visiting a [While] never returns.  When the
    condition lowers, the second class raises [AttributeError] with the
    loop label, the lines of the condition and the exit branch in the
    listing, and nothing of the body or of the jump back. *)
Theorem visit_While_raises address test body orelse s s1 :
  V2.visit test
    (V2.set_assembly_code
       (V2.assembly_code s ++ ["loop_" +:+ str_of_Z address +:+ ":"]) s)
    = Ok tt s1 →
  V2.visit (ast.While address test body orelse) s
    = Raise (AttributeError "'list' object has no attribute '_fields'")
        (V2.set_assembly_code
           (V2.assembly_code s1 ++ ["    jz end_loop_" +:+ str_of_Z address])
           s1)
  ∧ (∀ s0, ¬ succeeds (V2.visit (ast.While address test body orelse) s0))
  ∧ (∀ s0, ¬ succeeds (V1.visit (ast.While address test body orelse) s0)).
Proof.
  intros Htest. split_and!.
  - change (V2.visit (ast.While address test body orelse))
      with (V2.visit_While V2.visit address test body).
    unfold V2.visit_While. cbv zeta.
    erewrite bind_Ok by apply V2_emit_eq.
    erewrite bind_Ok by exact Htest.
    erewrite bind_Ok by apply V2_emit_eq.
    reflexivity.
  - intros s0 Hs0.
    by apply (V2_decides_visit (ast.While address test body orelse)) in Hs0.
  - intros s0. simpl. unfold V1.visit_While, bind. simpl.
    by destruct (V1.visit test _) as [[] ?|]; intros [].
Qed.

Lemma visit_While_raises_witness :
  ∃ s', V2.visit (ast.While 7 (ast.Name "count") [] []) V2.init
        = Raise (AttributeError "'list' object has no attribute '_fields'") s'
    ∧ V2.assembly_code s'
        = ["section .text"; "loop_7:";
           "    ; Unknown variable count (adding to globals)";
           "    jz end_loop_7"].
Proof.
  destruct (visit_While_raises 7 (ast.Name "count") [] [] V2.init
              (final (V2.visit (ast.Name "count")
                 (V2.set_assembly_code
                    (V2.assembly_code V2.init ++ ["loop_7:"]) V2.init))))
    as (Hraise & _); [vm_compute; reflexivity|].
  eexists. split; [exact Hraise|reflexivity].
Defined.

(** ** Functions *)

Lemma V2_visit_FunctionDef_eq name args body decos rets tparams s :
  V2.visit (ast.FunctionDef name args body decos rets tparams) s
  = (generic_visit V2.visit
       (Node (ast.FunctionDef name args body decos rets tparams)) ;;
     V2.emit "    pop rbp" ;;
     V2.emit "    ret" ;;
     modify (V2.set_current_function None))
      (V2.set_local_variables ∅
         (V2.set_current_function (Some name)
            (V2.set_assembly_code
               (V2.assembly_code s
                  ++ ["global " +:+ name; name +:+ ":";
                      "    push rbp"; "    mov rbp, rsp"]) s))).
Proof.
  set (fd := ast.FunctionDef name args body decos rets tparams).
  set (rest := (generic_visit V2.visit (Node fd) ;;
                V2.emit "    pop rbp" ;;
                V2.emit "    ret" ;;
                modify (V2.set_current_function None))).
  change (V2.visit fd s)
    with ((V2.emit ("global " +:+ name) ;;
           V2.emit (name +:+ ":") ;;
           V2.emit "    push rbp" ;;
           V2.emit "    mov rbp, rsp" ;;
           modify (V2.set_current_function (Some name)) ;;
           modify (V2.set_local_variables ∅) ;;
           rest) s).
  unfold bind at 1 2 3 4 5 6. simpl.
  unfold V2.set_local_variables, V2.set_current_function,
    V2.set_assembly_code. simpl.
  by rewrite <- !(assoc_L (++)).
Qed.

Lemma V2_appends_function_body name args body decos rets tparams :
  appends V2.assembly_code
    (generic_visit V2.visit
       (Node (ast.FunctionDef name args body decos rets tparams))).
Proof.
  assert (Hlist : ∀ l, appends V2.assembly_code (for_each V2.visit l)).
  { intros l. apply preserves_for_each; [apply _|].
    apply Forall_forall. intros n _. apply V2_appends_visit. }
  simpl.
  apply preserves_bind; [apply _|apply V2_appends_visit|intros _].
  apply preserves_bind; [apply _|apply Hlist|intros _].
  apply preserves_bind; [apply _|apply Hlist|intros _].
  apply preserves_bind; [apply _| |intros _; apply Hlist].
  destruct rets; [apply V2_appends_visit|apply preserves_ret; apply _].
Qed.

(** X4. The second class lowers a [FunctionDef] to the four lines of
    the prologue, then the lines that visiting the contents of the
    function appends, then [pop rbp] and [ret], and leaves
    [current_function] at [None], also after a function nested in
    another one; the sets are those that the contents left.  When the
    contents raise, the function raises the same with no epilogue. *)
Theorem FunctionDef_listing name args body decos rets tparams s s2 :
  generic_visit V2.visit
    (Node (ast.FunctionDef name args body decos rets tparams))
    (V2.set_local_variables ∅
       (V2.set_current_function (Some name)
          (V2.set_assembly_code
             (V2.assembly_code s
                ++ ["global " +:+ name; name +:+ ":";
                    "    push rbp"; "    mov rbp, rsp"]) s)))
    = Ok tt s2 →
  (∃ inner,
     V2.assembly_code s2
     = V2.assembly_code s
         ++ ["global " +:+ name; name +:+ ":";
             "    push rbp"; "    mov rbp, rsp"]
         ++ inner
     ∧ V2.visit (ast.FunctionDef name args body decos rets tparams) s
       = Ok tt
           (V2.set_current_function None
              (V2.set_assembly_code
                 (V2.assembly_code s
                    ++ ["global " +:+ name; name +:+ ":";
                        "    push rbp"; "    mov rbp, rsp"]
                    ++ inner ++ ["    pop rbp"; "    ret"]) s2)))
  ∧ ∀ s0 e s3,
      generic_visit V2.visit
        (Node (ast.FunctionDef name args body decos rets tparams))
        (V2.set_local_variables ∅
           (V2.set_current_function (Some name)
              (V2.set_assembly_code
                 (V2.assembly_code s0
                    ++ ["global " +:+ name; name +:+ ":";
                        "    push rbp"; "    mov rbp, rsp"]) s0)))
        = Raise e s3 →
      V2.visit (ast.FunctionDef name args body decos rets tparams) s0
      = Raise e s3.
Proof.
  intros Hinner. split.
  - destruct (appends_Ok _ _ _ _ _
                (V2_appends_function_body name args body decos rets tparams)
                Hinner) as [inner Hlines].
    simpl in Hlines. exists inner.
    split; [by rewrite Hlines, <- !(assoc_L (++))|].
    rewrite V2_visit_FunctionDef_eq, (bind_Ok _ _ _ _ _ Hinner).
    unfold bind. simpl. do 2 f_equal.
    unfold V2.set_assembly_code. simpl.
    by rewrite Hlines, <- !(assoc_L (++)).
  - intros s0 e s3 Hraise.
    rewrite V2_visit_FunctionDef_eq. unfold bind at 1. by rewrite Hraise.
Qed.

Lemma FunctionDef_listing_witness :
  ∃ inner,
    inner = ["    ; Unknown variable x (adding to globals)";
             "    mov rbx, rax"; "    add rax, rbx"; "    mov y, rax";
             "    mov rax, y"; "    ret"]
    ∧ V2.assembly_code (final (V2.visit inc_module V2.init))
      = V2.assembly_code V2.init
          ++ ["global inc"; "inc:"; "    push rbp"; "    mov rbp, rsp"]
          ++ inner ++ ["    pop rbp"; "    ret"].
Proof.
  destruct (FunctionDef_listing "inc" (plain_arguments 1)
              [ast.Assign [ast.Name "y"]
                 (ast.BinOp (ast.Name "x") ast.Add (ast.Constant (ast.Int 1)));
               ast.Return (Some (ast.Name "y"))]
              [] None [] V2.init
              (final (generic_visit V2.visit
                 (Node (ast.FunctionDef "inc" (plain_arguments 1)
                    [ast.Assign [ast.Name "y"]
                       (ast.BinOp (ast.Name "x") ast.Add
                          (ast.Constant (ast.Int 1)));
                     ast.Return (Some (ast.Name "y"))]
                    [] None []))
                 (V2.set_local_variables ∅
                    (V2.set_current_function (Some "inc")
                       (V2.set_assembly_code
                          (V2.assembly_code V2.init
                             ++ ["global inc"; "inc:";
                                 "    push rbp"; "    mov rbp, rsp"])
                          V2.init))))))
    as [(inner & Hinner & Hvisit) _]; [vm_compute; reflexivity|].
  exists inner. split.
  - vm_compute in Hinner. by injection Hinner as <-.
  - change (V2.visit inc_module V2.init)
      with (bind (V2.visit (ast.FunctionDef "inc" (plain_arguments 1)
                    [ast.Assign [ast.Name "y"]
                       (ast.BinOp (ast.Name "x") ast.Add
                          (ast.Constant (ast.Int 1)));
                     ast.Return (Some (ast.Name "y"))]
                    [] None []))
              (λ _, ret tt) V2.init).
    unfold bind at 1. by rewrite Hvisit.
Defined.

(** ** Assignments and returns *)

Lemma format_constant_Ok {S} c (s : S) :
  formats (ast.Constant c) = true → format_constant c s = Ok (py_str c) s.
Proof.
  simpl. intros Hc%negb_true_iff. unfold format_constant. by rewrite Hc.
Qed.

Lemma format_constant_Raise {S} c (s : S) :
  exceeds_digits c = true →
  ∃ msg, format_constant c s = Raise (ValueError msg) s.
Proof. intros Hc. unfold format_constant. rewrite Hc. by eexists. Qed.

(** X5. When the value of an [Assign] is a [Name], or a [Constant]
    that the f-string can format, the second class does not raise: it
    appends one [mov] per [Name] target, in the order of the targets,
    adds exactly those targets to [local_variables] and changes nothing
    else.  Targets that are no [Name] (attributes, subscripts, tuples)
    are passed over without a line and without an error. *)
Theorem V2_Assign_operand targets value text s :
  operand_text value = Some text →
  formats value = true →
  V2.visit (ast.Assign targets value) s
  = Ok tt
      {| V2.assembly_code :=
           V2.assembly_code s
             ++ map (λ x, "    mov " +:+ x +:+ ", " +:+ text)
                  (target_names targets);
         V2.variables := V2.variables s;
         V2.current_function := V2.current_function s;
         V2.global_variables := V2.global_variables s;
         V2.local_variables :=
           V2.local_variables s ∪ list_to_set (target_names targets);
         V2.builtins := V2.builtins s |}.
Proof.
  intros Htext Hformats.
  change (V2.visit (ast.Assign targets value))
    with (V2.visit_Assign V2.visit targets value).
  unfold V2.visit_Assign. revert s.
  induction targets as [|target targets IH]; intros s.
  - simpl. rewrite app_nil_r, (right_id_L ∅ (∪)). by destruct s.
  - rewrite for_each_cons.
    destruct target as [| | | | | | | | | | |x| |];
      try (unfold bind at 1; simpl ret; cbv beta iota; exact (IH s)).
    unfold bind at 1 2. rewrite V2_add_local_eq.
    destruct value as [| | | | | | | | | | |y|c|]; try discriminate;
      injection Htext as <-.
    + simpl. rewrite IH. simpl.
      by rewrite <- !(assoc_L (++)), <- !(assoc_L (∪)).
    + unfold bind at 1. rewrite (format_constant_Ok c) by done.
      simpl. rewrite IH. simpl.
      by rewrite <- !(assoc_L (++)), <- !(assoc_L (∪)).
Qed.

Lemma V2_Assign_operand_witness :
  V2.assembly_code
    (final (V2.visit
              (ast.Assign
                 [ast.Name "x"; ast.Attribute (ast.Name "a") "b"; ast.Name "y"]
                 (ast.Constant (ast.Int 5)))
              V2.init))
  = ["section .text"; "    mov x, 5"; "    mov y, 5"].
Proof.
  rewrite (V2_Assign_operand _ _ "5" V2.init); reflexivity.
Defined.

Lemma V1_record_targets targets s :
  ∃ vars,
    for_each (λ target,
      match target with
      | ast.Name id =>
          modify (λ s, V1.set_variables (<[id := tt]> (V1.variables s)) s)
      | _ => ret tt
      end) targets s
    = Ok tt (V1.State (V1.assembly_code s) vars (V1.current_function s))
    ∧ dom vars = dom (V1.variables s) ∪ list_to_set (target_names targets).
Proof.
  revert s. induction targets as [|target targets IH]; intros s.
  - exists (V1.variables s). split; [by destruct s|].
    simpl. by rewrite (right_id_L ∅ (∪)).
  - rewrite for_each_cons.
    destruct target as [| | | | | | | | | | |x| |];
      try (unfold bind at 1; simpl ret; cbv beta iota; exact (IH s)).
    destruct (IH (V1.set_variables (<[x:=tt]> (V1.variables s)) s))
      as (vars & Hrec & Hdom).
    exists vars. split; [exact Hrec|].
    rewrite Hdom. simpl. rewrite dom_insert_L.
    by rewrite (comm_L (∪) {[x]}), <- !(assoc_L (∪)).
Qed.

(** X6. In the first class the value of an assignment is moved into the
    last target only: when the last target is a [Name] and the value a
    [Name], or a [Constant] that the f-string can format, one [mov] to
    that target is appended, however many targets there are, and every
    [Name] target is recorded in [variables]. *)
Theorem V1_Assign_last_target targets id value text s :
  last targets = Some (ast.Name id) →
  operand_text value = Some text →
  formats value = true →
  ∃ vars,
    V1.visit (ast.Assign targets value) s
    = Ok tt (V1.State
               (V1.assembly_code s ++ ["    mov " +:+ id +:+ ", " +:+ text])
               vars (V1.current_function s))
    ∧ dom vars = dom (V1.variables s) ∪ list_to_set (target_names targets).
Proof.
  intros Hlast Htext Hformats.
  destruct (V1_record_targets targets s) as (vars & Hrec & Hdom).
  exists vars. split; [|done].
  change (V1.visit (ast.Assign targets value))
    with (V1.visit_Assign V1.visit targets value).
  unfold V1.visit_Assign. rewrite (bind_Ok _ _ _ _ _ Hrec).
  destruct value as [| | | | | | | | | | |y|c|]; try discriminate;
    injection Htext as <-; unfold bind, V1.target_id; rewrite Hlast.
  - done.
  - unfold ret. cbv beta iota. by rewrite (format_constant_Ok c).
Qed.

Lemma V1_Assign_last_target_witness :
  V1.assembly_code
    (final (V1.visit
              (ast.Assign [ast.Name "x"; ast.Name "y"]
                 (ast.Constant (ast.Int 5)))
              V1.init))
  = ["section .text"; "    mov y, 5"].
Proof.
  destruct (V1_Assign_last_target [ast.Name "x"; ast.Name "y"] "y"
              (ast.Constant (ast.Int 5)) "5" V1.init)
    as (vars & -> & _); reflexivity.
Defined.

(** X7. In the first class an assignment whose last target is no [Name]
    raises [AttributeError] when its value is a [Constant] or a [Name]:
    the [Name] targets have been recorded in [variables] by then, and
    the listing is as it was. *)
Theorem V1_Assign_bad_target targets target value text s :
  last targets = Some target →
  target_names [target] = [] →
  operand_text value = Some text →
  ∃ vars,
    V1.visit (ast.Assign targets value) s
    = Raise
        (AttributeError
           ("'" +:+ class_name target +:+ "' object has no attribute 'id'"))
        (V1.State (V1.assembly_code s) vars (V1.current_function s))
    ∧ dom vars = dom (V1.variables s) ∪ list_to_set (target_names targets).
Proof.
  intros Hlast Htarget Htext.
  destruct (V1_record_targets targets s) as (vars & Hrec & Hdom).
  exists vars. split; [|done].
  change (V1.visit (ast.Assign targets value))
    with (V1.visit_Assign V1.visit targets value).
  unfold V1.visit_Assign. rewrite (bind_Ok _ _ _ _ _ Hrec).
  destruct value; try discriminate; injection Htext as <-;
    unfold bind, V1.target_id; rewrite Hlast;
    by destruct target.
Qed.

Lemma V1_Assign_bad_target_witness :
  ∃ vars,
    V1.visit
      (ast.Assign [ast.Name "x"; ast.Attribute (ast.Name "a") "b"]
         (ast.Constant (ast.Int 5)))
      V1.init
    = Raise (AttributeError "'Attribute' object has no attribute 'id'")
        (V1.State ["section .text"] vars None)
    ∧ dom vars = {["x"]}.
Proof.
  destruct (V1_Assign_bad_target
              [ast.Name "x"; ast.Attribute (ast.Name "a") "b"]
              (ast.Attribute (ast.Name "a") "b")
              (ast.Constant (ast.Int 5)) "5" V1.init)
    as (vars & Hraise & Hdom); [reflexivity..|].
  exists vars. split; [exact Hraise|].
  rewrite Hdom. simpl. rewrite dom_empty_L.
  by rewrite (left_id_L ∅ (∪)), (right_id_L ∅ (∪)).
Defined.

Lemma V2_then_emit_last {A} (c : cmd V2.state A) line s s' :
  (c ;; V2.emit line) s = Ok tt s' → last (V2.assembly_code s') = Some line.
Proof.
  unfold bind. destruct (c s) as [a s1|]; [|done].
  intros [= <-]. simpl. apply last_snoc.
Qed.

(** X8. A [Return] whose value is no [BinOp], and no [Constant] that
    the f-string cannot format, does not raise and does not visit the
    value: the second class appends [mov rax, <operand>] when the value
    is a [Constant] or a [Name], and nothing for any other value (a
    call, a comparison, a list), then [ret]; the rest of the compiler
    object is untouched.  Whatever the value, a [Return] that is lowered
    without raising leaves [ret] as the last line. *)
Theorem V2_Return_listing value s :
  from_option is_BinOp false value = false →
  from_option formats true value = true →
  V2.visit (ast.Return value) s
  = Ok tt
      (V2.set_assembly_code
         (V2.assembly_code s
            ++ match value ≫= operand_text with
               | Some text => ["    mov rax, " +:+ text]
               | None => []
               end
            ++ ["    ret"]) s)
  ∧ ∀ value0 s0 s', V2.visit (ast.Return value0) s0 = Ok tt s' →
      last (V2.assembly_code s') = Some "    ret".
Proof.
  intros Hvalue Hformats. split.
  - destruct value as [[| | | | | | | | | | | |c|]|]; try discriminate;
      simpl in *; unfold V2.visit_Return, bind; simpl;
      rewrite ?(format_constant_Ok c) by done;
      unfold V2.emit, modify, V2.set_assembly_code; simpl;
      by rewrite <- ?(assoc_L (++)).
  - intros value0 s0 s'.
    change (V2.visit (ast.Return value0))
      with (V2.visit_Return V2.visit value0).
    apply V2_then_emit_last.
Qed.

Lemma V2_Return_listing_witness :
  V2.visit (ast.Return (Some (ast.Generic "Call" [ast.Name "f"]))) V2.init
  = Ok tt (V2.set_assembly_code ["section .text"; "    ret"] V2.init).
Proof.
  by destruct (V2_Return_listing
                 (Some (ast.Generic "Call" [ast.Name "f"])) V2.init) as [-> _].
Defined.

(** ** List and dictionary displays *)

Lemma V2_for_each_zip_no_rule (keys : list (option ast.node)) values s :
  forallb (from_option no_rule_below false) keys = true →
  forallb no_rule_below values = true →
  for_each_zip (map (V2.visit_key V2.visit) keys) (map V2.visit values) s
  = Ok tt s.
Proof.
  revert values.
  induction keys as [|key keys IH]; intros values Hkeys Hvalues; [done|].
  destruct values as [|value values]; [done|].
  simpl in Hkeys, Hvalues.
  apply andb_prop in Hkeys as [Hkey Hkeys].
  apply andb_prop in Hvalues as [Hvalue Hvalues].
  simpl map. rewrite for_each_zip_cons.
  destruct key as [k|]; [|done]. simpl in Hkey.
  unfold bind. simpl V2.visit_key.
  rewrite (V2_visit_no_rule k Hkey), (V2_visit_no_rule value Hvalue).
  by apply IH.
Qed.

(** X9. The items of a list or dictionary display are only visited,
    never stored: when the items are constants, or other trees of node
    kinds without a [visit_] method, the second class lowers the whole
    display to its one comment line and leaves the rest of the compiler
    object as it was. *)
Theorem V2_display_of_constants elts keys values s :
  forallb no_rule_below elts = true →
  forallb (from_option no_rule_below false) keys = true →
  forallb no_rule_below values = true →
  V2.visit (ast.List elts) s
    = Ok tt (V2.set_assembly_code
               (V2.assembly_code s ++ ["    ; Creating list"]) s)
  ∧ V2.visit (ast.Dict keys values) s
    = Ok tt (V2.set_assembly_code
               (V2.assembly_code s ++ ["    ; Creating dictionary"]) s).
Proof.
  intros Helts Hkeys Hvalues. split.
  - change (V2.visit (ast.List elts)) with (V2.visit_List V2.visit elts).
    unfold V2.visit_List. rewrite (bind_Ok _ _ _ _ _ (V2_emit_eq _ s)).
    apply V2_for_each_no_rule; [|done].
    apply Forall_forall. intros n _. apply V2_visit_no_rule.
  - change (V2.visit (ast.Dict keys values))
      with (V2.visit_Dict V2.visit keys values).
    unfold V2.visit_Dict. rewrite (bind_Ok _ _ _ _ _ (V2_emit_eq _ s)).
    by apply V2_for_each_zip_no_rule.
Qed.

Lemma V2_display_of_constants_witness :
  V2.assembly_code
    (final (V2.visit
              (ast.List [ast.Constant (ast.Int 1); ast.Constant (ast.Int 2)])
              V2.init))
    = ["section .text"; "    ; Creating list"]
  ∧ V2.assembly_code
      (final (V2.visit
                (ast.Dict [Some (ast.Constant (ast.Str "a"))]
                   [ast.Constant (ast.Int 1)])
                V2.init))
    = ["section .text"; "    ; Creating dictionary"].
Proof.
  destruct (V2_display_of_constants
              [ast.Constant (ast.Int 1); ast.Constant (ast.Int 2)]
              [Some (ast.Constant (ast.Str "a"))]
              [ast.Constant (ast.Int 1)] V2.init)
    as [-> ->]; [reflexivity..|].
  split; reflexivity.
Defined.

(** ** Compiling again with the same object *)

Lemma String_prefix_nil s : String.prefix "" s = true.
Proof. by destruct s. Qed.

Lemma String_prefix_refl a : String.prefix a a = true.
Proof.
  induction a as [|c a IH]; simpl; [done|].
  by destruct (Ascii.ascii_dec c c).
Qed.

Lemma String_prefix_refl_app a b : String.prefix a (a +:+ b) = true.
Proof.
  induction a as [|c a IH]; simpl; [apply String_prefix_nil|].
  by destruct (Ascii.ascii_dec c c).
Qed.

Lemma String_prefix_app_same a x y :
  String.prefix x y = true → String.prefix (a +:+ x) (a +:+ y) = true.
Proof.
  intros Hxy. induction a as [|c a IH]; simpl; [done|].
  by destruct (Ascii.ascii_dec c c).
Qed.

Lemma join_prefix l r : String.prefix (join LF l) (join LF (l ++ r)) = true.
Proof.
  induction l as [|a l IH]; [apply String_prefix_nil|].
  destruct l as [|b l].
  - destruct r as [|c r]; simpl.
    + apply String_prefix_refl.
    + apply String_prefix_refl_app.
  - change (join LF ((a :: b :: l) ++ r))
      with (a +:+ LF +:+ join LF ((b :: l) ++ r)).
    change (join LF (a :: b :: l)) with (a +:+ LF +:+ join LF (b :: l)).
    by do 2 apply String_prefix_app_same.
Qed.

(** X10. [compile] never resets [assembly_code]: when the same
    compiler object of the second class compiles a second tree, the
    text it returns begins with the whole text of the first
    compilation. *)
Theorem V2_compile_accumulates tree1 tree2 s text1 s1 text2 s2 :
  V2.compile tree1 s = Ok text1 s1 →
  V2.compile tree2 s1 = Ok text2 s2 →
  String.prefix text1 text2 = true
  ∧ V2.assembly_code s1 `prefix_of` V2.assembly_code s2.
Proof.
  unfold V2.compile, bind. intros H1 H2.
  pose proof (V2_appends_visit tree2 s1) as Hpre.
  destruct (V2.visit tree1 s) as [[] s1'|]; [|done].
  destruct (V2.visit tree2 s1) as [[] s2'|]; [|done].
  simpl in *. injection H1 as <- <-. injection H2 as <- <-.
  split; [|done]. destruct Hpre as [k ->]. apply join_prefix.
Qed.

Lemma V2_compile_accumulates_witness :
  String.prefix
    (join LF (V2.assembly_code (final (V2.visit inc_module V2.init))))
    (join LF (V2.assembly_code
                (final (V2.visit two_functions
                          (final (V2.visit inc_module V2.init))))))
  = true.
Proof.
  apply (V2_compile_accumulates inc_module two_functions V2.init
           _ (final (V2.visit inc_module V2.init))
           _ (final (V2.visit two_functions
                       (final (V2.visit inc_module V2.init)))));
    vm_compute; reflexivity.
Defined.

(** ** The first class: what a visit leaves as it was *)

#[export] Instance V1_keeps_variables_preorder : PreOrder V1_keeps_variables.
Proof.
  split; [intros s|intros s1 s2 s3]; unfold V1_keeps_variables.
  - done.
  - intros H12 H23. by etrans.
Qed.

Section V1_preserves.
Import V1.

(** A relation that every attribute update of the first class keeps. *)
Context (R : relation state) `{!PreOrder R}.
Hypothesis R_emit :
  ∀ line s, R s (set_assembly_code (assembly_code s ++ [line]) s).
Hypothesis R_current_function : ∀ f s, R s (set_current_function f s).
Hypothesis R_variables :
  ∀ id s, R s (set_variables (<[id := tt]> (variables s)) s).

Lemma V1_preserves_emit line : preserves R (emit line).
Proof. intros s. apply R_emit. Qed.

Hint Resolve V1_preserves_emit : preserves.

Lemma V1_preserves_target_id targets : preserves R (target_id targets).
Proof.
  unfold target_id. destruct (last targets) as [[]|]; eauto with preserves.
Qed.

Lemma V1_preserves_visit_BinOp op : preserves R (visit_BinOp op).
Proof. destruct op; simpl; repeat preserves_step. Qed.

Lemma V1_preserves_visit_Compare ops : preserves R (visit_Compare ops).
Proof.
  unfold visit_Compare. destruct ops as [|[] ops]; repeat preserves_step.
Qed.

Hint Resolve V1_preserves_target_id V1_preserves_visit_BinOp
  V1_preserves_visit_Compare : preserves.

Lemma V1_preserves_visit n : preserves R (visit n).
Proof.
  induction n as
    [ body IHbody
    | name args body decos rets tparams IHargs IHbody IHdecos IHrets IHtparams
    | targets value _ IHvalue | value IHvalue | left_ op right_ _ _
    | test body orelse IHtest _ _ | address test body orelse IHtest _ _
    | left_ ops comparators _ _ | elts IHelts
    | keys values IHkeys IHvalues | | | | kind children IHchildren ]
    using ast.node_ind; simpl.
  - by preserves_step.
  - repeat (preserves_step; try by apply preserves_modify).
    destruct rets; simpl in *; eauto with preserves.
  - preserves_step.
    + preserves_step. apply Forall_forall. intros target _.
      destruct target; eauto with preserves.
      by apply preserves_modify.
    + destruct value; eauto with preserves.
      * apply preserves_bind; [apply _|exact IHvalue|intros _].
        repeat preserves_step.
      * repeat preserves_step.
      * repeat preserves_step.
  - preserves_step; [|eauto with preserves].
    destruct value as [[]|]; simpl in *; eauto with preserves.
    repeat preserves_step.
  - eauto with preserves.
  - repeat preserves_step; try done.
    destruct orelse; repeat preserves_step.
  - by repeat preserves_step.
  - eauto with preserves.
  - by repeat preserves_step.
  - repeat preserves_step.
    + apply List.Forall_map. eapply Forall_impl; [exact IHkeys|].
      intros [k|] Hk; simpl in *; eauto with preserves.
    + by apply List.Forall_map.
  - eauto with preserves.
  - eauto with preserves.
  - eauto with preserves.
  - by preserves_step.
Qed.
End V1_preserves.

(** X11. In the first class too every visit, returning or raising,
    only appends to [assembly_code]; so when [compile] on a fresh object
    returns a text, its first line is [section .text]. *)
Theorem V1_compile_section_header_and_append_only tree text s' :
  V1.compile tree V1.init = Ok text s' →
  first_line text = "section .text"
  ∧ ∀ n, appends V1.assembly_code (V1.visit n).
Proof.
  assert (Happ : ∀ n, appends V1.assembly_code (V1.visit n)).
  { intros n. apply V1_preserves_visit;
      try apply _; unfold extends; simpl; intros; try done.
    by apply prefix_app_r. }
  intros Hc. split; [|done].
  pose proof (Happ tree V1.init) as Hpre.
  unfold V1.compile, bind in Hc.
  destruct (V1.visit tree V1.init) as [[] s1|e s1]; [|done].
  simpl in Hc, Hpre. injection Hc as <- <-.
  destruct Hpre as [k ->]. apply first_line_join.
Qed.

Lemma V1_compile_section_header_and_append_only_witness :
  first_line (join LF (V1.assembly_code (final (V1.visit two_compares V1.init))))
    = "section .text"
  ∧ ∀ n, appends V1.assembly_code (V1.visit n).
Proof.
  apply (V1_compile_section_header_and_append_only two_compares _
           (final (V1.visit two_compares V1.init))).
  vm_compute. reflexivity.
Defined.

(** X12. No visit of the first class, returning or raising, removes a
    name from [variables]. *)
Theorem V1_visit_keeps_variables n s :
  dom (V1.variables s) ⊆ dom (V1.variables (final (V1.visit n s))).
Proof.
  apply (V1_preserves_visit V1_keeps_variables);
    try apply _; unfold V1_keeps_variables; simpl; intros; try done.
  rewrite dom_insert_L. apply union_subseteq_r.
Qed.

(** ** Constants beyond the digit limit *)

(** X13. An [int] constant with more decimal digits than the limit of
    [str()] makes the f-string that writes it raise [ValueError]: in
    the second class an assignment to a [Name] raises with the target
    already local and no line appended, and a [Return] raises with the
    compiler object as it was; in the first class an assignment whose
    last target is a [Name] raises with the targets recorded and no line
    appended. *)
Theorem big_constant_ValueError c :
  exceeds_digits c = true →
  ∃ msg,
    (∀ x targets s,
       V2.visit (ast.Assign (ast.Name x :: targets) (ast.Constant c)) s
       = Raise (ValueError msg)
           (V2.set_local_variables (V2.local_variables s ∪ {[x]}) s))
    ∧ (∀ s,
         V2.visit (ast.Return (Some (ast.Constant c))) s
         = Raise (ValueError msg) s)
    ∧ (∀ targets id s,
         last targets = Some (ast.Name id) →
         ∃ vars,
           V1.visit (ast.Assign targets (ast.Constant c)) s
           = Raise (ValueError msg)
               (V1.State (V1.assembly_code s) vars (V1.current_function s))
           ∧ dom vars
             = dom (V1.variables s) ∪ list_to_set (target_names targets)).
Proof.
  intros Hc. eexists. split_and!.
  - intros x targets s.
    change (V2.visit (ast.Assign (ast.Name x :: targets) (ast.Constant c)))
      with (V2.visit_Assign V2.visit (ast.Name x :: targets) (ast.Constant c)).
    unfold V2.visit_Assign. rewrite for_each_cons.
    unfold bind at 1 2. rewrite V2_add_local_eq.
    unfold bind at 1, format_constant at 1. rewrite Hc. reflexivity.
  - intros s.
    change (V2.visit (ast.Return (Some (ast.Constant c))))
      with (V2.visit_Return V2.visit (Some (ast.Constant c))).
    unfold V2.visit_Return, bind, format_constant. by rewrite Hc.
  - intros targets id s Hlast.
    destruct (V1_record_targets targets s) as (vars & Hrec & Hdom).
    exists vars. split; [|done].
    change (V1.visit (ast.Assign targets (ast.Constant c)))
      with (V1.visit_Assign V1.visit targets (ast.Constant c)).
    unfold V1.visit_Assign. rewrite (bind_Ok _ _ _ _ _ Hrec).
    unfold bind, V1.target_id, format_constant. by rewrite Hlast, Hc.
Qed.

Lemma big_constant_ValueError_witness :
  ∃ msg,
    V2.visit (ast.Return (Some (ast.Constant (ast.Int (10 ^ 4300))))) V2.init
    = Raise (ValueError msg) V2.init.
Proof.
  destruct (big_constant_ValueError (ast.Int (10 ^ 4300)))
    as (msg & _ & Hreturn & _); [vm_compute; reflexivity|].
  exists msg. apply Hreturn.
Defined.
